(** * gen_icon.py: the ICO and PNG placeholder icon generator

    A shallow embedding of [src-tauri/icons/gen_icon.py] and the properties
    of the two files it writes.

    Layout of the development:
    - byte strings and fixed-width integers;
    - [struct]: the part of Python's [struct.pack] the script uses;
    - [zlib]: CRC-32, and the interface of the compressor;
    - the script monad (files, console, exceptions);
    - [gen_icon]: the script itself, statement by statement;
    - readers for the ICO, DIB and PNG layouts, used to state what the
      written bytes mean;
    - a stored-block zlib codec, an instance of the compressor interface;
    - lemmas and the theorems about the script. *)

From Stdlib Require Import ZArith List Lia String Ascii.
From Stdlib.Strings Require Import Byte.
From stdpp Require Import gmap strings list option.

Local Open Scope Z_scope.

(** ** Byte strings *)

(** A Python [bytes] object. *)
Abbreviation bytes := (list byte).

Definition Z_of_byte (b : byte) : Z := Z.of_N (Byte.to_N b).

(** The low eight bits of [z] as a byte. *)
Definition byte_of_Z (z : Z) : byte :=
  default x00 (Byte.of_N (Z.to_N (z mod 256))).

(** Python's [len]. *)
Definition len {A} (l : list A) : Z := Z.of_nat (length l).

(** Python's [b * n] on bytes: [n] copies of [b], none when [n <= 0]. *)
Definition bytes_mul (b : bytes) (n : Z) : bytes :=
  concat (replicate (Z.to_nat n) b).

(** Python's [range(n)]. *)
Definition range (n : Z) : list Z := seqZ 0 n.

(** [n] bytes of [v], least significant first (two's complement for a
    negative [v]). *)
Fixpoint le_bytes (n : nat) (v : Z) : bytes :=
  match n with
  | O => []
  | S k => byte_of_Z v :: le_bytes k (Z.shiftr v 8)
  end.

(** ** struct.pack

    The format strings of the script start with a byte-order character
    ([<] or [>]: standard sizes, no alignment) and use the codes [B], [H],
    [I] and [i].  A format with any other character, a wrong number of
    arguments, or an argument outside the range of its code makes
    [struct.pack] raise [struct.error]: [None] here. *)
Module struct.

Inductive byte_order := little_endian | big_endian.

Inductive code :=
| uchar   (* B: unsigned, 1 byte *)
| ushort  (* H: unsigned, 2 bytes *)
| uint    (* I: unsigned, 4 bytes *)
| int.    (* i: signed, 4 bytes *)

Definition code_of_ascii (a : ascii) : option code :=
  if Ascii.eqb a "B" then Some uchar
  else if Ascii.eqb a "H" then Some ushort
  else if Ascii.eqb a "I" then Some uint
  else if Ascii.eqb a "i" then Some int
  else None.

Definition size (c : code) : nat :=
  match c with uchar => 1 | ushort => 2 | uint => 4 | int => 4 end%nat.

Definition in_range (c : code) (v : Z) : bool :=
  match c with
  | uchar => (0 <=? v) && (v <? 2 ^ 8)
  | ushort => (0 <=? v) && (v <? 2 ^ 16)
  | uint => (0 <=? v) && (v <? 2 ^ 32)
  | int => (- 2 ^ 31 <=? v) && (v <? 2 ^ 31)
  end.

Definition pack_one (o : byte_order) (c : code) (v : Z) : bytes :=
  match o with
  | little_endian => le_bytes (size c) v
  | big_endian => rev (le_bytes (size c) v)
  end.

Fixpoint pack_all (o : byte_order) (cs : list code) (vs : list Z)
  : option bytes :=
  match cs, vs with
  | [], [] => Some []
  | c :: cs', v :: vs' =>
      if in_range c v
      then rest ← pack_all o cs' vs'; Some (pack_one o c v ++ rest)
      else None
  | _, _ => None
  end.

Definition parse_format (fmt : string) : option (byte_order * list code) :=
  match fmt with
  | String a rest =>
      o ← (if Ascii.eqb a "<" then Some little_endian
           else if Ascii.eqb a ">" then Some big_endian
           else None);
      cs ← mapM code_of_ascii (list_ascii_of_string rest);
      Some (o, cs)
  | EmptyString => None
  end.

Definition pack (fmt : string) (vs : list Z) : option bytes :=
  '(o, cs) ← parse_format fmt; pack_all o cs vs.

(** [struct.calcsize] *)
Definition calcsize (fmt : string) : option nat :=
  '(_, cs) ← parse_format fmt; Some (sum_list (size <$> cs)).

End struct.

(** ** zlib

    [zlib.crc32] is the CRC-32 of PNG and zlib: reflected polynomial
    [0xEDB88320], initial value and final complement [0xFFFFFFFF],
    computed bit by bit. *)
Module zlib.

Definition poly : Z := 0xEDB88320.

Definition shift (c : Z) : Z :=
  if Z.testbit c 0 then Z.lxor (Z.shiftr c 1) poly else Z.shiftr c 1.

Definition update_byte (c : Z) (b : byte) : Z :=
  Nat.iter 8 shift (Z.lxor c (Z_of_byte b)).

Definition crc32 (data : bytes) : Z :=
  Z.lxor (fold_left update_byte data 0xFFFFFFFF) 0xFFFFFFFF.

End zlib.

(** ** os.path.join (POSIX) *)
Module os_path.

Fixpoint ends_with_sep (s : string) : bool :=
  match s with
  | EmptyString => false
  | String c EmptyString => Ascii.eqb c "/"
  | String _ rest => ends_with_sep rest
  end.

(** [os.path.join(a, b)]: an absolute [b] replaces [a]; otherwise [b] is
    appended, after a separator unless [a] is empty or ends with one. *)
Definition join (a b : string) : string :=
  if String.prefix "/" b then b
  else if String.eqb a "" || ends_with_sep a then a +:+ b
  else a +:+ "/" +:+ b.

End os_path.

(** ** The script monad

    What a run of the script can touch: the files it writes, the console,
    and the paths [open] refuses.  A statement either returns or raises;
    the script catches nothing, so the first exception ends the run and
    the world stays as the statements before it left it (a [with] block
    closes its file on the way out, with what was written so far).  Once
    a file is open, writing to it succeeds. *)

Inductive exn := struct_error | OSError.

Inductive result (A : Type) :=
| Returned (a : A)
| Raised (e : exn).
Arguments Returned {A} a.
Arguments Raised {A} e.

Record World := mkWorld {
  files : gmap string bytes;     (* path -> contents *)
  stdout : list string;          (* printed lines, oldest first *)
  unwritable : gset string       (* paths [open(path, 'wb')] fails on *)
}.

Definition Script (A : Type) : Type := World → World * result A.

#[global] Instance Script_ret : MRet Script := λ A a s, (s, Returned a).

#[global] Instance Script_bind : MBind Script := λ A B f m s,
  match m s with
  | (s', Returned a) => f a s'
  | (s', Raised e) => (s', Raised e)
  end.

(** A [struct.pack] result as a statement: [None] raises [struct.error]. *)
Definition packed {A} (o : option A) : Script A := λ s,
  (s, match o with Some a => Returned a | None => Raised struct_error end).

(** [open(path, 'wb')]: fails with [OSError] on an unwritable path, else
    creates the file or truncates it. *)
Definition open_wb (path : string) : Script unit := λ s,
  if decide (path ∈ unwritable s) then (s, Raised OSError)
  else (mkWorld (<[path := []]> (files s)) (stdout s) (unwritable s),
        Returned tt).

(** [f.write(data)] on the file opened at [path]: appends. *)
Definition write (path : string) (data : bytes) : Script unit := λ s,
  (mkWorld (<[path := default [] (files s !! path) ++ data]> (files s))
           (stdout s) (unwritable s),
   Returned tt).

Definition print (line : string) : Script unit := λ s,
  (mkWorld (files s) (stdout s ++ [line]) (unwritable s), Returned tt).

(** ** The script *)
Module gen_icon.

(** *** 16x16 icon.ico (lines 7-18) *)

Definition w : Z := 16.
Definition h : Z := 16.

Definition info : option bytes :=
  struct.pack "<IiiHHIIiiII" [40; w; h * 2; 1; 32; 0; 0; 0; 0; 0; 0].

Definition px : bytes := bytes_mul (bytes_mul [xf6; x82; x3b; xff] w) h.

Definition mask : bytes := bytes_mul (bytes_mul [x00] h) 4.

Definition img : option bytes :=
  info ← info; Some ((info ++ px) ++ mask).

Definition hdr : option bytes := struct.pack "<HHH" [0; 1; 1].

Definition d : option bytes :=
  img ← img;
  struct.pack "<BBBBHHII" [w; h; 0; 0; 1; 32; len img; 22].

Definition ico_path (dir_path : string) : string :=
  os_path.join dir_path "icon.ico".

(** The argument of [f.write] on line 17, [hdr + d + img]. *)
Definition ico_file : option bytes :=
  img ← img; hdr ← hdr; d ← d; Some ((hdr ++ d) ++ img).

(** *** 32x32 icon.png (lines 20-38) *)

Definition w2 : Z := 32.
Definition h2 : Z := 32.

(** The loop of lines 22-24. *)
Definition raw : bytes :=
  fold_left
    (λ raw _, raw ++ ([x00] ++ bytes_mul [x3b; x82; xf6; xff] w2))
    (range h2) [].

Definition ihdr_data : option bytes :=
  struct.pack ">IIBBBBB" [w2; h2; 8; 6; 0; 0; 0].

Definition png_chunk (chunk_type data : bytes) : option bytes :=
  let crc := Z.land (zlib.crc32 (chunk_type ++ data)) 0xffffffff in
  length_field ← struct.pack ">I" [len data];
  crc_field ← struct.pack ">I" [crc];
  Some (((length_field ++ chunk_type) ++ data) ++ crc_field).

Definition png_path (dir_path : string) : string :=
  os_path.join dir_path "icon.png".

(** b'\x89PNG\r\n\x1a\n' *)
Definition signature : bytes := [x89; x50; x4e; x47; x0d; x0a; x1a; x0a].

(** b'IHDR', b'IDAT', b'IEND' *)
Definition IHDR : bytes := [x49; x48; x44; x52].
Definition IDAT : bytes := [x49; x44; x41; x54].
Definition IEND : bytes := [x49; x45; x4e; x44].

Section script.

(** [zlib.compress] with its default level: a function of the bytes
    it is given.  A failure inside the library is outside the model. *)
Variable compress : bytes → bytes.

(** What the four [f.write] calls of lines 34-37 put into icon.png
    when none of them raises. *)
Definition png_file : option bytes :=
  ihdr_data ← ihdr_data;
  c1 ← png_chunk IHDR ihdr_data;
  c2 ← png_chunk IDAT (compress raw);
  c3 ← png_chunk IEND [];
  Some (((signature ++ c1) ++ c2) ++ c3).

(** The whole script, run from the directory [dir_path] (line 5).
    Lines 8-14 and 21-26 only compute (or raise); the effects are the
    two [with open] blocks and the prints. *)
Definition main (dir_path : string) : Script unit :=
  data ← packed ico_file;
  open_wb (ico_path dir_path);;
  write (ico_path dir_path) data;;
  print ("Created " +:+ ico_path dir_path);;
  ihdr_data ← packed ihdr_data;
  open_wb (png_path dir_path);;
  write (png_path dir_path) signature;;
  (c ← packed (png_chunk IHDR ihdr_data); write (png_path dir_path) c);;
  (c ← packed (png_chunk IDAT (compress raw));
   write (png_path dir_path) c);;
  (c ← packed (png_chunk IEND []); write (png_path dir_path) c);;
  print ("Created " +:+ png_path dir_path);;
  print "Done!".

End script.

End gen_icon.

(** ** Reading bytes back

    The layouts of the ICO container, of the DIB header inside it and of
    a PNG chunk stream, as readers over a byte string.  They are written
    from the file formats, independently of the script, and say what the
    bytes the script writes mean to a program that opens the files. *)

#[global] Instance byte_eq_decision : EqDecision byte := Byte.byte_eq_dec.

(** The unsigned value of a little-endian (big-endian) byte string. *)
Definition le_uint (bs : bytes) : Z :=
  foldr (λ b acc, Z_of_byte b + 256 * acc) 0 bs.

Definition be_uint (bs : bytes) : Z := le_uint (rev bs).

(** A 32-bit pattern read as a two's complement number. *)
Definition signed32 (v : Z) : Z := if v <? 2 ^ 31 then v else v - 2 ^ 32.

Definition Reader (A : Type) : Type := bytes → option (A * bytes).

#[global] Instance Reader_ret : MRet Reader := λ A a s, Some (a, s).

#[global] Instance Reader_bind : MBind Reader := λ A B f m s,
  match m s with
  | Some (a, s') => f a s'
  | None => None
  end.

Definition read_bytes (n : nat) : Reader bytes := λ s,
  if decide (n ≤ length s)%nat then Some (take n s, drop n s) else None.

(** Fails unless [P] holds. *)
Definition require (P : Prop) `{Decision P} : Reader unit := λ s,
  if decide P then Some (tt, s) else None.

Definition u8 : Reader Z := bs ← read_bytes 1; mret (le_uint bs).
Definition u16le : Reader Z := bs ← read_bytes 2; mret (le_uint bs).
Definition u32le : Reader Z := bs ← read_bytes 4; mret (le_uint bs).
Definition i32le : Reader Z := bs ← read_bytes 4; mret (signed32 (le_uint bs)).
Definition u32be : Reader Z := bs ← read_bytes 4; mret (be_uint bs).

(** *** ICO: ICONDIR, ICONDIRENTRY, BITMAPINFOHEADER *)
Module ico.

Record ICONDIR := {
  idReserved : Z;
  idType : Z;
  idCount : Z
}.

Record ICONDIRENTRY := {
  bWidth : Z;
  bHeight : Z;
  bColorCount : Z;
  bReserved : Z;
  wPlanes : Z;
  wBitCount : Z;
  dwBytesInRes : Z;
  dwImageOffset : Z
}.

Record BITMAPINFOHEADER := {
  biSize : Z;
  biWidth : Z;
  biHeight : Z;
  biPlanes : Z;
  biBitCount : Z;
  biCompression : Z;
  biSizeImage : Z;
  biXPelsPerMeter : Z;
  biYPelsPerMeter : Z;
  biClrUsed : Z;
  biClrImportant : Z
}.

Definition read_ICONDIR : Reader ICONDIR :=
  r ← u16le; t ← u16le; n ← u16le;
  mret {| idReserved := r; idType := t; idCount := n |}.

Definition read_ICONDIRENTRY : Reader ICONDIRENTRY :=
  wd ← u8; ht ← u8; cc ← u8; rs ← u8;
  pl ← u16le; bc ← u16le; sz ← u32le; off ← u32le;
  mret {| bWidth := wd; bHeight := ht; bColorCount := cc; bReserved := rs;
          wPlanes := pl; wBitCount := bc;
          dwBytesInRes := sz; dwImageOffset := off |}.

Definition read_BITMAPINFOHEADER : Reader BITMAPINFOHEADER :=
  sz ← u32le; wd ← i32le; ht ← i32le; pl ← u16le; bc ← u16le;
  cm ← u32le; si ← u32le; xp ← i32le; yp ← i32le; cu ← u32le; ci ← u32le;
  mret {| biSize := sz; biWidth := wd; biHeight := ht; biPlanes := pl;
          biBitCount := bc; biCompression := cm; biSizeImage := si;
          biXPelsPerMeter := xp; biYPelsPerMeter := yp;
          biClrUsed := cu; biClrImportant := ci |}.

(** The image data an entry points at: [dwBytesInRes] bytes of the
    file from offset [dwImageOffset]. *)
Definition image_data (file : bytes) (e : ICONDIRENTRY) : option bytes :=
  if decide (dwImageOffset e + dwBytesInRes e ≤ len file)
  then Some (take (Z.to_nat (dwBytesInRes e))
                  (drop (Z.to_nat (dwImageOffset e)) file))
  else None.

(** A single-image icon file, taken apart. *)
Record icon := {
  dir : ICONDIR;
  entry : ICONDIRENTRY;
  dib : BITMAPINFOHEADER;
  xor_pixels : bytes;   (* the colour bitmap *)
  and_mask : bytes      (* what follows it in the image data *)
}.

(** The colour bitmap has [biWidth] pixels in each of [biHeight / 2]
    rows ([biHeight] counts the mask rows too), [biBitCount / 8] bytes
    per pixel. *)
Definition read_icon (file : bytes) : option icon :=
  '(hd, rest) ← read_ICONDIR file;
  if decide (idCount hd = 1) then
    '(e, _) ← read_ICONDIRENTRY rest;
    data ← image_data file e;
    '(bi, rest) ← read_BITMAPINFOHEADER data;
    let n := biWidth bi * (biHeight bi / 2) * (biBitCount bi / 8) in
    '(pixels, rest) ← read_bytes (Z.to_nat n) rest;
    Some {| dir := hd; entry := e; dib := bi;
            xor_pixels := pixels; and_mask := rest |}
  else None.

(** Pixel [i] of a 32-bit bitmap: bytes [4 i .. 4 i + 3]. *)
Definition pixel (pixels : bytes) (i : nat) : bytes :=
  take 4 (drop (4 * i) pixels).

End ico.

(** *** PNG: signature, chunks, IHDR, scanlines *)
Module png.

Definition signature : bytes := [x89; x50; x4e; x47; x0d; x0a; x1a; x0a].

Record chunk := {
  chunk_length : Z;
  chunk_type : bytes;
  chunk_data : bytes;
  chunk_crc : Z
}.

Definition read_chunk : Reader chunk :=
  n ← u32be; t ← read_bytes 4; dat ← read_bytes (Z.to_nat n); c ← u32be;
  mret {| chunk_length := n; chunk_type := t;
          chunk_data := dat; chunk_crc := c |}.

(** The checksum field of a chunk is the CRC-32 of its type and data. *)
Definition crc_ok (c : chunk) : Prop :=
  chunk_crc c = zlib.crc32 (chunk_type c ++ chunk_data c).

(** A chunk as it lies in the file: big-endian length, type, data,
    big-endian checksum. *)
Definition chunk_bytes (c : chunk) : bytes :=
  rev (le_bytes 4 (chunk_length c))
    ++ chunk_type c ++ chunk_data c
    ++ rev (le_bytes 4 (chunk_crc c)).

(** The chunk of type [t] that carries [dat]. *)
Definition chunk_of (t dat : bytes) : chunk :=
  {| chunk_length := len dat; chunk_type := t; chunk_data := dat;
     chunk_crc := zlib.crc32 (t ++ dat) |}.

(** Chunks up to the end of the input, each with a matching checksum. *)
Fixpoint read_chunks (fuel : nat) (s : bytes) : option (list chunk) :=
  match s, fuel with
  | [], _ => Some []
  | _, O => None
  | _, S fuel' =>
      '(c, rest) ← read_chunk s;
      if decide (crc_ok c)
      then cs ← read_chunks fuel' rest; Some (c :: cs)
      else None
  end.

Definition read_png (file : bytes) : option (list chunk) :=
  '(sig, rest) ← read_bytes 8 file;
  if decide (sig = signature) then read_chunks (length rest) rest else None.

Record IHDR_fields := {
  width : Z;
  height : Z;
  bit_depth : Z;
  color_type : Z;
  compression_method : Z;
  filter_method : Z;
  interlace_method : Z
}.

Definition read_IHDR : Reader IHDR_fields :=
  wd ← u32be; ht ← u32be; bd ← u8; ct ← u8; cm ← u8; fm ← u8; im ← u8;
  mret {| width := wd; height := ht; bit_depth := bd; color_type := ct;
          compression_method := cm; filter_method := fm;
          interlace_method := im |}.

(** Scanline [r] of decompressed image data with [n] bytes a line. *)
Definition scanline (n : nat) (data : bytes) (r : nat) : bytes :=
  take n (drop (n * r) data).

(** Pixel [c] of a scanline of 4-byte pixels, after the filter byte. *)
Definition pixel (line : bytes) (c : nat) : bytes :=
  take 4 (drop (1 + 4 * c) line).

End png.

(** An RGBA colour and its two serialisations. *)
Record colour := RGBA { red : byte; green : byte; blue : byte; alpha : byte }.

Definition rgba_bytes (c : colour) : bytes := [red c; green c; blue c; alpha c].
Definition bgra_bytes (c : colour) : bytes := [blue c; green c; red c; alpha c].

(** ** A zlib codec with stored blocks

    The script calls [zlib.compress] and is a function of whatever that
    returns; the theorems take the compressor as a parameter.  This module
    is one compressor and its decompressor, small enough to reason about:
    a zlib stream (RFC 1950) whose deflate data (RFC 1951) consists of
    stored blocks only, as [zlib.compress(data, 0)] writes.  It serves as
    a concrete instance of the interface. *)
Module stored.

Definition adler32 (data : bytes) : Z :=
  let '(a, b) :=
    fold_left (λ '(a, b) x,
                 let a' := (a + Z_of_byte x) mod 65521 in
                 (a', (b + a') mod 65521))
              data (1, 0) in
  b * 65536 + a.

Definition max_block : nat := Z.to_nat 65535.

(** One stored block: BFINAL and BTYPE=00 in a byte of their own, LEN,
    its one's complement, the data. *)
Definition block (final : bool) (data : bytes) : bytes :=
  [if final then x01 else x00]
    ++ le_bytes 2 (len data)
    ++ le_bytes 2 (Z.lxor (len data) 0xFFFF)
    ++ data.

Fixpoint blocks (fuel : nat) (data : bytes) : bytes :=
  match fuel with
  | O => block true data
  | S fuel' =>
      if decide (length data ≤ max_block)%nat then block true data
      else block false (take max_block data)
             ++ blocks fuel' (drop max_block data)
  end.

Definition compress (data : bytes) : bytes :=
  [x78; x01] ++ blocks (length data) data ++ rev (le_bytes 4 (adler32 data)).

Definition read_block : Reader (bool * bytes) :=
  hd ← u8;
  require (hd = 0 ∨ hd = 1);;
  n ← u16le; c ← u16le;
  require (c = Z.lxor n 0xFFFF);;
  dat ← read_bytes (Z.to_nat n);
  mret (bool_decide (hd = 1), dat).

Fixpoint read_blocks (fuel : nat) : Reader bytes :=
  match fuel with
  | O => λ _, None
  | S fuel' =>
      '(final, dat) ← read_block;
      if final : bool then mret dat
      else rest ← read_blocks fuel'; mret (dat ++ rest)
  end.

Definition decompress (s : bytes) : option bytes :=
  '(hd, rest) ← read_bytes 2 s;
  if decide (hd = [x78; x01]) then
    '(data, rest) ← read_blocks (length rest) rest;
    '(sum, rest) ← u32be rest;
    if decide (rest = [] ∧ sum = adler32 data) then Some data else None
  else None.

End stored.

(** * Lemmas *)

(** Splits a conjunction into its parts, and nothing else. *)
Ltac conjuncts := repeat match goal with |- _ ∧ _ => split end.

(** Settles the parts of a conjunction by evaluation, one after the other:
    a part may fix a value that the next one evaluates. *)
Ltac by_evaluation :=
  lazymatch goal with
  | |- _ ∧ _ => split; [vm_compute; reflexivity | by_evaluation]
  | _ => vm_compute; reflexivity
  end.


(** ** Bytes and fixed-width integers *)

Lemma Z_of_byte_range (b : byte) : 0 ≤ Z_of_byte b < 256.
Proof.
  unfold Z_of_byte. pose proof (Byte.to_N_bounded b). lia.
Qed.

Lemma Z_of_byte_of_Z (z : Z) : Z_of_byte (byte_of_Z z) = z mod 256.
Proof.
  unfold Z_of_byte, byte_of_Z.
  assert (Hr : 0 ≤ z mod 256 < 256) by (apply Z.mod_pos_bound; lia).
  destruct (Byte.of_N (Z.to_N (z mod 256))) as [b|] eqn:Hb; simpl.
  - apply Byte.to_of_N in Hb. rewrite Hb. lia.
  - apply Byte.of_N_None_iff in Hb. lia.
Qed.

Lemma length_le_bytes (n : nat) (v : Z) : length (le_bytes n v) = n.
Proof.
  revert v. induction n as [|n IH]; intros v; simpl; [done|].
  by rewrite IH.
Qed.

Lemma le_uint_range (bs : bytes) : 0 ≤ le_uint bs < 256 ^ len bs.
Proof.
  unfold len. induction bs as [|b bs IH]; simpl; [lia|].
  pose proof (Z_of_byte_range b).
  rewrite Nat2Z.inj_succ, Z.pow_succ_r by lia. lia.
Qed.

(** Reading back [n] little-endian bytes of [v] gives [v] modulo
    [256 ^ n]: the unsigned value of its two's complement pattern. *)
Lemma le_uint_le_bytes (n : nat) (v : Z) :
  le_uint (le_bytes n v) = v mod 256 ^ Z.of_nat n.
Proof.
  revert v. induction n as [|n IH]; intros v.
  - simpl. by rewrite Z.mod_1_r.
  - cbn [le_bytes le_uint foldr]. fold (le_uint (le_bytes n (v ≫ 8))).
    rewrite IH, Z_of_byte_of_Z, Z.shiftr_div_pow2 by lia.
    rewrite Nat2Z.inj_succ, Z.pow_succ_r by lia.
    change (2 ^ 8) with 256.
    rewrite Z.rem_mul_r by lia. lia.
Qed.

Lemma le_uint_le_bytes_small (n : nat) (v : Z) :
  0 ≤ v < 256 ^ Z.of_nat n → le_uint (le_bytes n v) = v.
Proof. intros. rewrite le_uint_le_bytes. by apply Z.mod_small. Qed.

Lemma be_uint_be_bytes_small (n : nat) (v : Z) :
  0 ≤ v < 256 ^ Z.of_nat n → be_uint (rev (le_bytes n v)) = v.
Proof.
  intros. unfold be_uint. rewrite rev_involutive.
  by apply le_uint_le_bytes_small.
Qed.

(** ** Python's [b * n] *)

Lemma length_bytes_mul (b : bytes) (n : Z) :
  length (bytes_mul b n) = (Z.to_nat n * length b)%nat.
Proof.
  unfold bytes_mul. induction (Z.to_nat n) as [|k IH]; simpl; [done|].
  rewrite length_app, IH. lia.
Qed.

(** Copy [i] of the repeated string is the string itself. *)
Lemma bytes_mul_copy (b : bytes) (n : Z) (i : nat) :
  (i < Z.to_nat n)%nat →
  take (length b) (drop (i * length b) (bytes_mul b n)) = b.
Proof.
  unfold bytes_mul. revert i.
  induction (Z.to_nat n) as [|k IH]; intros i Hi; [lia|].
  cbn [replicate concat]. destruct i as [|i].
  - rewrite Nat.mul_0_l, drop_0. apply take_app_length.
  - replace (S i * length b)%nat with (length b + i * length b)%nat by lia.
    rewrite drop_app_add. apply IH. lia.
Qed.

Lemma bytes_mul_mul (b : bytes) (n m : Z) :
  0 ≤ n → 0 ≤ m → bytes_mul (bytes_mul b n) m = bytes_mul b (n * m).
Proof.
  intros Hn Hm. unfold bytes_mul.
  rewrite Z2Nat.inj_mul by lia.
  induction (Z.to_nat m) as [|k IH]; simpl.
  - by rewrite Nat.mul_0_r.
  - rewrite IH, <- concat_app, <- replicate_add.
    f_equal. f_equal. lia.
Qed.

Lemma bytes_mul_singleton (x : byte) (n : Z) :
  bytes_mul [x] n = replicate (Z.to_nat n) x.
Proof.
  unfold bytes_mul. induction (Z.to_nat n) as [|k IH]; simpl; [done|].
  by rewrite IH.
Qed.

(** ** Readers *)

Lemma read_bytes_app (a s : bytes) (n : nat) :
  n = length a → read_bytes n (a ++ s) = Some (a, s).
Proof.
  intros ->. unfold read_bytes.
  rewrite decide_True by (rewrite length_app; lia).
  by rewrite take_app_length, drop_app_length.
Qed.

Lemma bind_read_bytes {B} (a s : bytes) (n : nat) (f : bytes → Reader B) :
  n = length a → (read_bytes n ≫= f) (a ++ s) = f a s.
Proof.
  intros Hn. unfold mbind, Reader_bind. by rewrite read_bytes_app.
Qed.

Lemma u16le_le_bytes (v : Z) (s : bytes) :
  0 ≤ v < 2 ^ 16 → u16le (le_bytes 2 v ++ s) = Some (v, s).
Proof.
  intros Hv. unfold u16le.
  rewrite bind_read_bytes by (by rewrite length_le_bytes).
  unfold mret, Reader_ret. by rewrite le_uint_le_bytes_small.
Qed.

Lemma u32be_be_bytes (v : Z) (s : bytes) :
  0 ≤ v < 2 ^ 32 → u32be (rev (le_bytes 4 v) ++ s) = Some (v, s).
Proof.
  intros Hv. unfold u32be.
  rewrite bind_read_bytes by (by rewrite length_rev, length_le_bytes).
  unfold mret, Reader_ret. by rewrite be_uint_be_bytes_small.
Qed.

(** ** struct.pack *)

Lemma pack_uint_be (v : Z) :
  0 ≤ v < 2 ^ 32 → struct.pack ">I" [v] = Some (rev (le_bytes 4 v)).
Proof.
  intros Hv. cbn -[le_bytes Z.pow].
  replace (_ && _) with true by (symmetry; apply andb_true_iff; lia).
  cbn -[le_bytes]. by rewrite app_nil_r.
Qed.

Lemma pack_uint_be_None (v : Z) : 2 ^ 32 ≤ v → struct.pack ">I" [v] = None.
Proof.
  intros Hv. cbn -[le_bytes Z.pow].
  replace (_ && _) with false; [done|].
  symmetry. apply andb_false_iff. right. lia.
Qed.

(** [struct.pack] writes as many bytes as [struct.calcsize] says. *)
Lemma length_pack_all o cs vs bs :
  struct.pack_all o cs vs = Some bs →
  length bs = sum_list (struct.size <$> cs).
Proof.
  revert vs bs. induction cs as [|c cs IH]; intros [|v vs] bs; simpl; try done.
  - by intros [= <-].
  - destruct (struct.in_range c v); [|done].
    destruct (struct.pack_all o cs vs) as [rest|] eqn:Hrest; [|done].
    intros [= <-]. rewrite length_app, (IH _ _ Hrest).
    f_equal. destruct o; simpl; by rewrite ?length_rev, length_le_bytes.
Qed.

Lemma length_pack fmt vs bs :
  struct.pack fmt vs = Some bs → struct.calcsize fmt = Some (length bs).
Proof.
  unfold struct.pack, struct.calcsize.
  destruct (struct.parse_format fmt) as [[o cs]|]; simpl; [|done].
  intros H. by rewrite (length_pack_all _ _ _ _ H).
Qed.

(** ** CRC-32 *)

Lemma lxor_below (n a b : Z) :
  0 ≤ n → 0 ≤ a < 2 ^ n → 0 ≤ b < 2 ^ n → 0 ≤ Z.lxor a b < 2 ^ n.
Proof.
  intros Hn Ha Hb. split; [apply Z.lxor_nonneg; lia|].
  destruct (decide (n = 0)) as [->|Hn0].
  { replace a with 0 by lia. replace b with 0 by lia. done. }
  destruct (decide (Z.lxor a b = 0)) as [->|Hne].
  { apply Z.pow_pos_nonneg; lia. }
  assert (0 < Z.lxor a b) by (pose proof (proj2 (Z.lxor_nonneg a b)); lia).
  apply Z.log2_lt_pow2; [done|].
  pose proof (Z.log2_lxor a b ltac:(lia) ltac:(lia)) as Hx.
  assert (Z.log2 a < n).
  { destruct (decide (a = 0)) as [->|]; [simpl; lia|].
    apply Z.log2_lt_pow2; lia. }
  assert (Z.log2 b < n).
  { destruct (decide (b = 0)) as [->|]; [simpl; lia|].
    apply Z.log2_lt_pow2; lia. }
  lia.
Qed.

Lemma crc32_shift_range (c : Z) :
  0 ≤ c < 2 ^ 32 → 0 ≤ zlib.shift c < 2 ^ 32.
Proof.
  intros Hc. unfold zlib.shift.
  assert (0 ≤ c ≫ 1 < 2 ^ 31).
  { rewrite Z.shiftr_div_pow2 by lia. change (2 ^ 1) with 2.
    split; [apply Z.div_pos; lia|]. apply Z.div_lt_upper_bound; lia. }
  destruct (Z.testbit c 0); [|lia].
  apply lxor_below; [lia|lia|]. unfold zlib.poly. lia.
Qed.

Lemma crc32_update_byte_range (c : Z) (b : byte) :
  0 ≤ c < 2 ^ 32 → 0 ≤ zlib.update_byte c b < 2 ^ 32.
Proof.
  intros Hc. unfold zlib.update_byte.
  assert (H0 : 0 ≤ Z.lxor c (Z_of_byte b) < 2 ^ 32).
  { pose proof (Z_of_byte_range b). apply lxor_below; lia. }
  generalize dependent (Z.lxor c (Z_of_byte b)). intros x Hx.
  do 8 (apply crc32_shift_range). exact Hx.
Qed.

(** [zlib.crc32] returns an unsigned 32-bit number. *)
Lemma crc32_range (data : bytes) : 0 ≤ zlib.crc32 data < 2 ^ 32.
Proof.
  unfold zlib.crc32.
  assert (H : ∀ c, 0 ≤ c < 2 ^ 32 →
                   0 ≤ fold_left zlib.update_byte data c < 2 ^ 32).
  { induction data as [|b data IH]; intros c Hc; simpl; [done|].
    apply IH. by apply crc32_update_byte_range. }
  apply lxor_below; [lia| |lia]. apply H. lia.
Qed.

(** So the mask on line 29 changes nothing. *)
Lemma crc32_land_mask (data : bytes) :
  Z.land (zlib.crc32 data) 0xffffffff = zlib.crc32 data.
Proof.
  pose proof (crc32_range data).
  change 0xffffffff with (Z.ones 32).
  rewrite Z.land_ones by lia. apply Z.mod_small. lia.
Qed.

(** ** PNG chunks *)

(** [png_chunk] raises exactly when the payload length does not fit the
    32-bit length field; otherwise it writes the chunk [chunk_of t dat]. *)
Lemma png_chunk_Some (t dat : bytes) :
  len dat < 2 ^ 32 →
  gen_icon.png_chunk t dat = Some (png.chunk_bytes (png.chunk_of t dat)).
Proof.
  intros Hlen. unfold gen_icon.png_chunk.
  rewrite crc32_land_mask.
  rewrite !pack_uint_be by (unfold len in *; first [apply crc32_range | lia]).
  cbn -[le_bytes zlib.crc32]. unfold png.chunk_bytes. cbn -[le_bytes zlib.crc32].
  by rewrite <- !app_assoc.
Qed.

Lemma png_chunk_None (t dat : bytes) :
  2 ^ 32 ≤ len dat → gen_icon.png_chunk t dat = None.
Proof.
  intros Hlen. unfold gen_icon.png_chunk. cbv zeta.
  rewrite (pack_uint_be_None (len dat)) by exact Hlen. reflexivity.
Qed.

Lemma png_chunk_is_Some (t dat : bytes) :
  is_Some (gen_icon.png_chunk t dat) ↔ len dat < 2 ^ 32.
Proof.
  split.
  - intros [bs Hbs]. destruct (decide (len dat < 2 ^ 32)); [done|].
    rewrite png_chunk_None in Hbs by lia. done.
  - intros H. rewrite png_chunk_Some by done. by eexists.
Qed.

(** A chunk whose fields fit their widths is read back from its bytes. *)
Lemma read_chunk_bytes (t dat s : bytes) :
  length t = 4%nat → len dat < 2 ^ 32 →
  png.read_chunk (png.chunk_bytes (png.chunk_of t dat) ++ s)
  = Some (png.chunk_of t dat, s).
Proof.
  intros Ht Hlen. unfold png.read_chunk, png.chunk_bytes.
  cbn [png.chunk_of png.chunk_length png.chunk_type png.chunk_data
       png.chunk_crc].
  rewrite <- !app_assoc.
  unfold mbind at 1. unfold Reader_bind at 1.
  rewrite u32be_be_bytes by (unfold len in *; lia).
  rewrite bind_read_bytes by done.
  rewrite bind_read_bytes by (unfold len; lia).
  unfold mbind, Reader_bind.
  rewrite u32be_be_bytes by apply crc32_range.
  done.
Qed.

Lemma chunk_bytes_not_nil (c : png.chunk) (s : bytes) :
  png.chunk_bytes c ++ s ≠ [].
Proof.
  unfold png.chunk_bytes. intros H. apply (f_equal length) in H.
  rewrite !length_app, !length_rev, !length_le_bytes in H. simpl in H. lia.
Qed.

Lemma crc_ok_chunk_of (t dat : bytes) : png.crc_ok (png.chunk_of t dat).
Proof. reflexivity. Qed.

(** A list of such chunks, laid end to end, is read back whole. *)
Lemma read_chunks_bytes (tds : list (bytes * bytes)) (fuel : nat) :
  Forall (λ td, length td.1 = 4%nat ∧ len td.2 < 2 ^ 32) tds →
  (length tds ≤ fuel)%nat →
  png.read_chunks fuel
    (concat ((λ td, png.chunk_bytes (png.chunk_of td.1 td.2)) <$> tds))
  = Some ((λ td, png.chunk_of td.1 td.2) <$> tds).
Proof.
  intros Hall. revert fuel.
  induction Hall as [|[t dat] tds [Ht Hd] _ IH]; intros fuel Hfuel.
  - by destruct fuel.
  - cbn [fmap list_fmap concat fst snd] in *.
    destruct fuel as [|fuel]; [simpl in Hfuel; lia|].
    cbn [png.read_chunks].
    destruct (png.chunk_bytes _ ++ _) as [|b0 bs] eqn:Hbs.
    { by apply chunk_bytes_not_nil in Hbs. }
    rewrite <- Hbs. rewrite read_chunk_bytes by done.
    cbn [mbind option_bind].
    rewrite decide_True by apply crc_ok_chunk_of.
    rewrite IH by (simpl in Hfuel; lia). done.
Qed.

(** ** The two paths *)

Lemma append_inj_l (p a b : string) : p +:+ a = p +:+ b → a = b.
Proof.
  induction p as [|c p IH]; simpl; [done|].
  intros [= H]. by apply IH.
Qed.

(** icon.ico and icon.png are different files of the same directory. *)
Lemma ico_path_ne_png_path (dir_path : string) :
  gen_icon.ico_path dir_path ≠ gen_icon.png_path dir_path.
Proof.
  unfold gen_icon.ico_path, gen_icon.png_path, os_path.join.
  cbn [String.prefix Ascii.ascii_dec]. simpl String.prefix.
  destruct (_ || _); intros H; apply append_inj_l in H; discriminate.
Qed.

(** ** The values the script computes *)

Lemma ihdr_data_eq :
  gen_icon.ihdr_data
  = Some [x00; x00; x00; x20; x00; x00; x00; x20; x08; x06; x00; x00; x00].
Proof. reflexivity. Qed.

Lemma ico_parts :
  ∃ hdr d info,
    gen_icon.hdr = Some hdr ∧ gen_icon.d = Some d ∧
    gen_icon.info = Some info ∧
    gen_icon.ico_file
    = Some (hdr ++ d ++ info ++ gen_icon.px ++ gen_icon.mask) ∧
    length hdr = 6%nat ∧ length d = 16%nat ∧ length info = 40%nat.
Proof.
  do 3 eexists. by_evaluation.
Qed.

(** ** Running the script *)

(** One step of a run, for each kind of statement. *)

Lemma run_packed_Some {A B} (a : A) (k : A → Script B) (s : World) :
  (packed (Some a) ≫= k) s = k a s.
Proof. reflexivity. Qed.

Lemma run_packed_None {A B} (k : A → Script B) (s : World) :
  (packed None ≫= k) s = (s, Raised struct_error).
Proof. reflexivity. Qed.

Lemma run_open_wb {B} (path : string) (k : unit → Script B) (s : World) :
  path ∉ unwritable s →
  (open_wb path ≫= k) s
  = k tt (mkWorld (<[path := []]> (files s)) (stdout s) (unwritable s)).
Proof.
  intros H. unfold mbind, Script_bind, open_wb. by rewrite decide_False.
Qed.

Lemma run_open_wb_unwritable {B} (path : string) (k : unit → Script B)
    (s : World) :
  path ∈ unwritable s → (open_wb path ≫= k) s = (s, Raised OSError).
Proof.
  intros H. unfold mbind, Script_bind, open_wb. by rewrite decide_True.
Qed.

Lemma run_write {B} (path : string) (data : bytes) (k : unit → Script B)
    (s : World) :
  (write path data ≫= k) s
  = k tt (mkWorld (<[path := default [] (files s !! path) ++ data]> (files s))
                  (stdout s) (unwritable s)).
Proof. reflexivity. Qed.

Lemma run_print {B} (line : string) (k : unit → Script B) (s : World) :
  (print line ≫= k) s
  = k tt (mkWorld (files s) (stdout s ++ [line]) (unwritable s)).
Proof. reflexivity. Qed.

Lemma run_bind_assoc {A B C} (m : Script A) (f : A → Script B)
    (g : B → Script C) (s : World) :
  ((m ≫= f) ≫= g) s = (m ≫= λ a, f a ≫= g) s.
Proof.
  unfold mbind, Script_bind. destruct (m s) as [s' [a|e]]; reflexivity.
Qed.

Section run.

Variable compress : bytes → bytes.
Variable dir_path : string.

(** Every way a run can go.  The icon is written unless its path cannot
    be opened; the PNG stops after the IHDR chunk when the compressed
    data is too long for a chunk. *)
Lemma main_cases (s : World) (ico ihdr : bytes) :
  gen_icon.ico_file = Some ico →
  gen_icon.ihdr_data = Some ihdr →
  len ihdr < 2 ^ 32 →
  gen_icon.main compress dir_path s =
    let ico_path := gen_icon.ico_path dir_path in
    let png_path := gen_icon.png_path dir_path in
    let c1 := png.chunk_bytes (png.chunk_of gen_icon.IHDR ihdr) in
    let c2 := png.chunk_bytes
                (png.chunk_of gen_icon.IDAT (compress gen_icon.raw)) in
    let c3 := png.chunk_bytes (png.chunk_of gen_icon.IEND []) in
    let out1 := stdout s ++ ["Created " +:+ ico_path] in
    let files1 := <[ico_path := ico]> (files s) in
    if decide (ico_path ∈ unwritable s) then (s, Raised OSError)
    else if decide (png_path ∈ unwritable s)
    then (mkWorld files1 out1 (unwritable s), Raised OSError)
    else if decide (len (compress gen_icon.raw) < 2 ^ 32)
    then (mkWorld
            (<[png_path := gen_icon.signature ++ c1 ++ c2 ++ c3]> files1)
            (out1 ++ ["Created " +:+ png_path; "Done!"])
            (unwritable s),
          Returned tt)
    else (mkWorld (<[png_path := gen_icon.signature ++ c1]> files1)
                  out1 (unwritable s),
          Raised struct_error).
Proof.
  intros Hico Hihdr Hlen. cbv zeta.
  set (ico_path := gen_icon.ico_path dir_path).
  set (png_path := gen_icon.png_path dir_path).
  set (c1 := png.chunk_bytes (png.chunk_of gen_icon.IHDR ihdr)).
  set (c2 := png.chunk_bytes (png.chunk_of gen_icon.IDAT _)).
  set (c3 := png.chunk_bytes (png.chunk_of gen_icon.IEND [])).
  set (out1 := stdout s ++ _).
  set (files1 := <[ico_path := ico]> (files s)).
  unfold gen_icon.main. fold ico_path png_path.
  rewrite Hico, run_packed_Some.
  destruct (decide (ico_path ∈ unwritable s)) as [Hi|Hi].
  { by rewrite run_open_wb_unwritable. }
  rewrite run_open_wb, run_write, run_print by done.
  cbn [files stdout unwritable].
  rewrite lookup_insert_eq, insert_insert_eq, app_nil_l.
  fold files1 out1.
  rewrite Hihdr, run_packed_Some.
  destruct (decide (png_path ∈ unwritable s)) as [Hp|Hp].
  { by rewrite run_open_wb_unwritable. }
  rewrite run_open_wb, run_write by done.
  cbn [files stdout unwritable].
  rewrite lookup_insert_eq, insert_insert_eq, app_nil_l.
  rewrite run_bind_assoc, (png_chunk_Some gen_icon.IHDR ihdr) by done.
  rewrite run_packed_Some, run_write.
  cbn [files stdout unwritable].
  rewrite lookup_insert_eq, insert_insert_eq.
  rewrite run_bind_assoc.
  destruct (decide (len (compress gen_icon.raw) < 2 ^ 32)) as [Hc|Hc].
  - rewrite (png_chunk_Some gen_icon.IDAT (compress gen_icon.raw)) by done.
    rewrite run_packed_Some, run_write.
    cbn [files stdout unwritable].
    rewrite lookup_insert_eq, insert_insert_eq.
    rewrite run_bind_assoc, (png_chunk_Some gen_icon.IEND []) by done.
    rewrite run_packed_Some, run_write.
    cbn [files stdout unwritable].
    rewrite lookup_insert_eq, insert_insert_eq.
    rewrite run_print. unfold print. cbn [files stdout unwritable].
    cbn [from_option id]. unfold c1, c2, c3.
    by rewrite <- !app_assoc.
  - rewrite (png_chunk_None gen_icon.IDAT (compress gen_icon.raw)) by lia.
    rewrite run_packed_None. cbn [from_option id]. done.
Qed.

(** What [png_file] is when the compressed data fits a chunk. *)
Lemma png_file_Some :
  len (compress gen_icon.raw) < 2 ^ 32 →
  ∃ ihdr,
    gen_icon.ihdr_data = Some ihdr ∧
    gen_icon.png_file compress
    = Some (gen_icon.signature
              ++ png.chunk_bytes (png.chunk_of gen_icon.IHDR ihdr)
              ++ png.chunk_bytes
                   (png.chunk_of gen_icon.IDAT (compress gen_icon.raw))
              ++ png.chunk_bytes (png.chunk_of gen_icon.IEND [])).
Proof.
  intros Hc. eexists. split; [apply ihdr_data_eq|].
  unfold gen_icon.png_file. rewrite ihdr_data_eq. cbn [mbind option_bind].
  rewrite (png_chunk_Some gen_icon.IHDR) by done. cbn [mbind option_bind].
  rewrite (png_chunk_Some gen_icon.IDAT) by done. cbn [mbind option_bind].
  rewrite (png_chunk_Some gen_icon.IEND) by done. cbn [mbind option_bind].
  by rewrite <- !app_assoc.
Qed.

Lemma png_file_None :
  2 ^ 32 ≤ len (compress gen_icon.raw) → gen_icon.png_file compress = None.
Proof.
  intros Hc. unfold gen_icon.png_file.
  rewrite ihdr_data_eq. cbn [mbind option_bind].
  rewrite (png_chunk_Some gen_icon.IHDR) by done. cbn [mbind option_bind].
  by rewrite (png_chunk_None gen_icon.IDAT) by done.
Qed.

(** A run returns exactly when both files can be opened and the
    compressed data fits a chunk. *)
Lemma main_returns_iff (s : World) :
  (gen_icon.main compress dir_path s).2 = Returned tt ↔
  (gen_icon.ico_path dir_path ∉ unwritable s) ∧
  (gen_icon.png_path dir_path ∉ unwritable s) ∧
  len (compress gen_icon.raw) < 2 ^ 32.
Proof.
  destruct ico_parts as (hdr & d & info & _ & _ & _ & Hico & _).
  rewrite (main_cases s _ _ Hico ihdr_data_eq) by done. cbv zeta.
  destruct (decide (_ ∈ _)); [split; [done|tauto]|].
  destruct (decide (_ ∈ _)); [split; [done|tauto]|].
  destruct (decide (_ < _)); [tauto|split; [done|tauto]].
Qed.

(** A run that returns leaves both files complete and changes no other
    file. *)
Lemma main_returns_files (s : World) :
  (gen_icon.main compress dir_path s).2 = Returned tt →
  ∃ ico png,
    gen_icon.ico_file = Some ico ∧
    gen_icon.png_file compress = Some png ∧
    files (gen_icon.main compress dir_path s).1
    = <[gen_icon.png_path dir_path := png]>
        (<[gen_icon.ico_path dir_path := ico]> (files s)).
Proof.
  intros Hret. pose proof Hret as (Hi & Hp & Hc)%main_returns_iff.
  destruct ico_parts as (hdr & d & info & _ & _ & _ & Hico & _).
  destruct (png_file_Some Hc) as (ihdr & Hihdr & Hpng).
  eexists _, _. split; [exact Hico|]. split; [exact Hpng|].
  rewrite (main_cases s _ _ Hico Hihdr).
  2: { rewrite ihdr_data_eq in Hihdr. by injection Hihdr as <-. }
  cbv zeta.
  rewrite (decide_False (P := _ ∈ _)) by exact Hi.
  rewrite (decide_False (P := _ ∈ _)) by exact Hp.
  rewrite (decide_True (P := _ < _)) by exact Hc.
  reflexivity.
Qed.

(** The icon survives whatever happens to the PNG afterwards. *)
Lemma main_ico_file (s : World) :
  gen_icon.ico_path dir_path ∉ unwritable s →
  files (gen_icon.main compress dir_path s).1 !! gen_icon.ico_path dir_path
  = gen_icon.ico_file.
Proof.
  intros Hi.
  destruct ico_parts as (hdr & d & info & _ & _ & _ & Hico & _).
  rewrite (main_cases s _ _ Hico ihdr_data_eq) by done. cbv zeta.
  rewrite decide_False by done. rewrite Hico.
  pose proof (ico_path_ne_png_path dir_path).
  destruct (decide (_ ∈ _)); [apply lookup_insert_eq|].
  destruct (decide (_ < _)); cbn [fst files];
    by rewrite lookup_insert_ne, lookup_insert_eq by done.
Qed.

(** A run never changes which paths can be opened. *)
Lemma main_unwritable (s : World) :
  unwritable (gen_icon.main compress dir_path s).1 = unwritable s.
Proof.
  destruct ico_parts as (hdr & d & info & _ & _ & _ & Hico & _).
  rewrite (main_cases s _ _ Hico ihdr_data_eq) by done. cbv zeta.
  destruct (decide (_ ∈ _)); [done|].
  destruct (decide (_ ∈ _)); [done|].
  by destruct (decide (_ < _)).
Qed.

End run.

(** ** The stored-block codec decompresses what it compresses *)

Lemma bind_reader_Some {A B} (m : Reader A) (f : A → Reader B)
    (s s' : bytes) (a : A) :
  m s = Some (a, s') → (m ≫= f) s = f a s'.
Proof. intros H. unfold mbind, Reader_bind. by rewrite H. Qed.

Lemma bind_require {B} (P : Prop) `{Decision P} (f : unit → Reader B)
    (s : bytes) :
  P → (require P ≫= f) s = f tt s.
Proof.
  intros HP. unfold mbind, Reader_bind, require. by rewrite decide_True.
Qed.

Lemma u8_cons (b : byte) (s : bytes) : u8 (b :: s) = Some (Z_of_byte b, s).
Proof.
  unfold u8. rewrite (bind_read_bytes [b] s) by done.
  unfold mret, Reader_ret, le_uint. cbn [foldr]. f_equal. f_equal. lia.
Qed.

Lemma adler32_range (data : bytes) : 0 ≤ stored.adler32 data < 2 ^ 32.
Proof.
  unfold stored.adler32.
  set (step := λ '(a, b) x, _).
  assert (H : ∀ ab : Z * Z,
             0 ≤ ab.1 < 65521 ∧ 0 ≤ ab.2 < 65521 →
             0 ≤ (fold_left step data ab).1 < 65521 ∧
             0 ≤ (fold_left step data ab).2 < 65521).
  { induction data as [|x data IH]; intros [a b] Hab; [done|].
    cbn [fold_left]. apply IH. unfold step; cbn [fst snd].
    split; apply Z.mod_pos_bound; lia. }
  specialize (H (1, 0)).
  destruct (fold_left step data (1, 0)) as [a b]. cbn [fst snd] in H. lia.
Qed.

Lemma read_block_block (final : bool) (data s : bytes) :
  (length data ≤ stored.max_block)%nat →
  stored.read_block (stored.block final data ++ s) = Some ((final, data), s).
Proof.
  intros Hlen. unfold stored.max_block in Hlen.
  assert (Hn : 0 ≤ len data < 2 ^ 16) by (unfold len; lia).
  unfold stored.read_block, stored.block.
  rewrite <- !app_assoc. cbn [app].
  rewrite (bind_reader_Some _ _ _ _ _ (u8_cons _ _)).
  rewrite bind_require by (destruct final; [by right | by left]).
  rewrite (bind_reader_Some _ _ _ _ _ (u16le_le_bytes _ _ Hn)).
  assert (Hc : 0 ≤ Z.lxor (len data) 0xFFFF < 2 ^ 16)
    by (apply lxor_below; lia).
  rewrite (bind_reader_Some _ _ _ _ _ (u16le_le_bytes _ _ Hc)).
  rewrite bind_require by done.
  rewrite bind_read_bytes by (unfold len; lia).
  unfold mret, Reader_ret. by destruct final.
Qed.

Lemma read_blocks_blocks (k : nat) (data s : bytes) (fuel : nat) :
  (length data ≤ k)%nat → (length data < fuel)%nat →
  stored.read_blocks fuel (stored.blocks k data ++ s) = Some (data, s).
Proof.
  assert (Hmax : (0 < stored.max_block)%nat)
    by (unfold stored.max_block; lia).
  revert data fuel. induction k as [|k IH]; intros data fuel Hk Hfuel.
  - destruct fuel as [|fuel]; [lia|]. cbn [stored.blocks stored.read_blocks].
    assert (Hle : (length data ≤ stored.max_block)%nat) by lia.
    by rewrite (bind_reader_Some _ _ _ _ _ (read_block_block true data s Hle)).
  - destruct fuel as [|fuel]; [lia|]. cbn [stored.blocks stored.read_blocks].
    destruct (decide (length data ≤ stored.max_block)%nat) as [Hle|Hgt].
    + by rewrite (bind_reader_Some _ _ _ _ _
                    (read_block_block true data s Hle)).
    + assert (Htake : (length (take stored.max_block data)
                       ≤ stored.max_block)%nat)
        by (rewrite length_take; lia).
      assert (Hdrop : (length (drop stored.max_block data) ≤ k)%nat)
        by (rewrite length_drop; lia).
      assert (Hdrop' : (length (drop stored.max_block data) < fuel)%nat)
        by (rewrite length_drop; lia).
      rewrite <- app_assoc.
      rewrite (bind_reader_Some _ _ _ _ _
                 (read_block_block false _ _ Htake)).
      cbn beta iota.
      rewrite (bind_reader_Some _ _ _ _ _ (IH _ fuel Hdrop Hdrop')).
      unfold mret, Reader_ret. by rewrite take_drop.
Qed.

Lemma length_blocks_ge (k : nat) (data : bytes) :
  (length data + 5 ≤ length (stored.blocks k data))%nat.
Proof.
  assert (Hb : ∀ f d, length (stored.block f d) = (5 + length d)%nat).
  { intros f d. unfold stored.block.
    by rewrite !length_app, !length_le_bytes. }
  revert data. induction k as [|k IH]; intros data; cbn [stored.blocks].
  - rewrite Hb. lia.
  - destruct (decide _); rewrite ?length_app, Hb; [lia|].
    specialize (IH (drop stored.max_block data)).
    rewrite length_take, length_drop in *. lia.
Qed.

Theorem stored_decompress_compress (data : bytes) :
  stored.decompress (stored.compress data) = Some data.
Proof.
  unfold stored.decompress, stored.compress.
  rewrite (read_bytes_app [x78; x01]) by done. cbn [mbind option_bind].
  rewrite decide_True by done.
  rewrite read_blocks_blocks; [|done|].
  2: { rewrite length_app. pose proof (length_blocks_ge (length data) data).
       lia. }
  cbn [mbind option_bind].
  rewrite <- (app_nil_r (rev _)), u32be_be_bytes by apply adler32_range.
  cbn [mbind option_bind]. by rewrite decide_True.
Qed.

(** ** The pixel data *)

(** A loop that appends the same line on every round builds that many
    copies of it. *)
Lemma fold_left_append_const {A} (line init : bytes) (l : list A) :
  fold_left (λ acc _, acc ++ line) l init
  = init ++ concat (replicate (length l) line).
Proof.
  revert init. induction l as [|x l IH]; intros init; simpl.
  - by rewrite app_nil_r.
  - by rewrite IH, <- app_assoc.
Qed.

Lemma raw_eq :
  gen_icon.raw = bytes_mul (x00 :: bytes_mul [x3b; x82; xf6; xff] 32) 32.
Proof.
  unfold gen_icon.raw, range, gen_icon.h2, gen_icon.w2.
  rewrite fold_left_append_const, length_seqZ. reflexivity.
Qed.

Lemma px_eq : gen_icon.px = bytes_mul [xf6; x82; x3b; xff] 256.
Proof. unfold gen_icon.px. by rewrite bytes_mul_mul. Qed.

Lemma mask_eq : gen_icon.mask = replicate 64 x00.
Proof.
  unfold gen_icon.mask. by rewrite bytes_mul_mul, bytes_mul_singleton.
Qed.

(** Every pixel of the icon's bitmap is the four bytes of line 10. *)
Lemma px_pixel (i : nat) :
  (i < 256)%nat → ico.pixel gen_icon.px i = [xf6; x82; x3b; xff].
Proof.
  intros Hi. unfold ico.pixel. rewrite px_eq, Nat.mul_comm.
  apply (bytes_mul_copy [xf6; x82; x3b; xff] 256 i). lia.
Qed.

(** Every scanline of the PNG data is a zero byte and 32 pixels. *)
Lemma raw_scanline (r : nat) :
  (r < 32)%nat →
  png.scanline 129 gen_icon.raw r = x00 :: bytes_mul [x3b; x82; xf6; xff] 32.
Proof.
  intros Hr. unfold png.scanline. rewrite raw_eq, Nat.mul_comm.
  apply (bytes_mul_copy (x00 :: bytes_mul [x3b; x82; xf6; xff] 32) 32 r). lia.
Qed.

(** Every pixel of every scanline is the four bytes of line 24. *)
Lemma raw_pixel (r c : nat) :
  (r < 32)%nat → (c < 32)%nat →
  png.pixel (png.scanline 129 gen_icon.raw r) c = [x3b; x82; xf6; xff].
Proof.
  intros Hr Hc. rewrite raw_scanline by done. unfold png.pixel.
  change (drop (1 + 4 * c) (x00 :: ?l)) with (drop (4 * c) l).
  rewrite Nat.mul_comm.
  apply (bytes_mul_copy [x3b; x82; xf6; xff] 32 c). lia.
Qed.

(** * The icon file *)

(** C1 as stated does not hold: in the directory entry of the icon the
    script writes, the colour-planes and bits-per-pixel fields are not
    both 0. *)
Lemma C1_planes_and_bit_count_are_not_zero :
  ¬ ∃ file ic,
      gen_icon.ico_file = Some file ∧ ico.read_icon file = Some ic ∧
      ico.wPlanes (ico.entry ic) = 0 ∧ ico.wBitCount (ico.entry ic) = 0.
Proof.
  intros (file & ic & Hfile & Hic & Hplanes & _).
  vm_compute in Hfile. injection Hfile as <-.
  vm_compute in Hic. injection Hic as <-.
  discriminate Hplanes.
Qed.

(** C1, amended: in the directory entry line 14 packs, the two fields
    that are 0 are the colour-count and reserved bytes; the colour-planes
    field is 1 and the bits-per-pixel field is 32, the same values as in
    the DIB header. *)
Theorem C1_directory_entry_planes_and_bit_count :
  ∃ d e file ic,
    gen_icon.d = Some d ∧ ico.read_ICONDIRENTRY d = Some (e, []) ∧
    gen_icon.ico_file = Some file ∧ ico.read_icon file = Some ic ∧
    ico.entry ic = e ∧
    ico.bColorCount e = 0 ∧ ico.bReserved e = 0 ∧
    ico.wPlanes e = 1 ∧ ico.wBitCount e = 32 ∧
    ico.wPlanes e = ico.biPlanes (ico.dib ic) ∧
    ico.wBitCount e = ico.biBitCount (ico.dib ic).
Proof.
  do 4 eexists. by_evaluation.
Qed.

(** C2: the icon.ico a run leaves behind is exactly 1150 bytes: the 6-byte
    header and the 16-byte directory entry (22 bytes), then the 40-byte
    DIB header, the 1024-byte pixel array and the 64-byte mask; the
    entry's size field is 40 + 1024 + 64 = 1128 and its offset field 22. *)
Theorem C2_icon_ico_is_1150_bytes (compress : bytes → bytes)
    (dir_path : string) (s : World) :
  gen_icon.ico_path dir_path ∉ unwritable s →
  ∃ file hdr d info ic,
    files (gen_icon.main compress dir_path s).1
      !! gen_icon.ico_path dir_path = Some file ∧
    gen_icon.hdr = Some hdr ∧ gen_icon.d = Some d ∧
    gen_icon.info = Some info ∧
    file = hdr ++ d ++ info ++ gen_icon.px ++ gen_icon.mask ∧
    length hdr = 6%nat ∧ length d = 16%nat ∧ length info = 40%nat ∧
    length gen_icon.px = 1024%nat ∧ length gen_icon.mask = 64%nat ∧
    length file = 1150%nat ∧
    ico.read_icon file = Some ic ∧
    ico.dwBytesInRes (ico.entry ic) = 40 + 1024 + 64 ∧
    ico.dwImageOffset (ico.entry ic) = 22 ∧
    ico.dwImageOffset (ico.entry ic) = len hdr + len d.
Proof.
  intros Hw.
  destruct ico_parts as (hdr & d & info & Hhdr & Hd & Hinfo & Hfile
                         & Lhdr & Ld & Linfo).
  assert (Lpx : length gen_icon.px = 1024%nat).
  { rewrite px_eq, length_bytes_mul. reflexivity. }
  assert (Lmask : length gen_icon.mask = 64%nat).
  { rewrite mask_eq. apply length_replicate. }
  assert (Hic : ∃ ic, (gen_icon.ico_file ≫= ico.read_icon) = Some ic ∧
                      ico.dwBytesInRes (ico.entry ic) = 1128 ∧
                      ico.dwImageOffset (ico.entry ic) = 22).
  { eexists. by_evaluation. }
  destruct Hic as (ic & Hic & Hsize & Hoff).
  rewrite Hfile in Hic. cbn [mbind option_bind] in Hic.
  exists (hdr ++ d ++ info ++ gen_icon.px ++ gen_icon.mask), hdr, d, info, ic.
  conjuncts; try assumption; try reflexivity.
  - by rewrite main_ico_file.
  - rewrite !length_app. lia.
  - rewrite Hoff. unfold len. lia.
Qed.

(** C2 at a run from an empty world, with the stored-block compressor. *)
Lemma C2_icon_ico_is_1150_bytes_witness :
  ∃ file,
    files (gen_icon.main stored.compress "/app/src-tauri/icons"
             (mkWorld ∅ [] ∅)).1
      !! "/app/src-tauri/icons/icon.ico" = Some file ∧
    length file = 1150%nat.
Proof.
  destruct (C2_icon_ico_is_1150_bytes stored.compress "/app/src-tauri/icons"
              (mkWorld ∅ [] ∅))
    as (file & hdr & d & info & ic & Hfile & _ & _ & _ & _ & _ & _ & _ & _
        & _ & Hlen & _).
  - apply not_elem_of_empty.
  - exists file. split; [exact Hfile | exact Hlen].
Defined.

(** C3: the file header is reserved = 0, type = 1, count = 1, three
    little-endian 16-bit fields, and the directory entry starts with the
    width 16 and the height 16, one byte each. *)
Theorem C3_ico_header_and_entry_dimensions :
  ∃ hdr d file ic,
    gen_icon.hdr = Some hdr ∧
    hdr = le_bytes 2 0 ++ le_bytes 2 1 ++ le_bytes 2 1 ∧
    gen_icon.d = Some d ∧
    take 2 d = [byte_of_Z 16; byte_of_Z 16] ∧
    gen_icon.ico_file = Some file ∧
    take 6 file = hdr ∧ take 16 (drop 6 file) = d ∧
    ico.read_icon file = Some ic ∧
    ico.dir ic = {| ico.idReserved := 0; ico.idType := 1; ico.idCount := 1 |} ∧
    ico.bWidth (ico.entry ic) = 16 ∧ ico.bHeight (ico.entry ic) = 16.
Proof.
  do 4 eexists. by_evaluation.
Qed.

(** C4: the DIB header is 40 little-endian bytes: size 40, width 16,
    height 32 (twice the 16 rows), planes 1, bit count 32, compression 0
    and five more fields, all 0; it is what the icon file holds at the
    entry's offset. *)
Theorem C4_dib_header :
  ∃ info file ic,
    gen_icon.info = Some info ∧ length info = 40%nat ∧
    info = le_bytes 4 40 ++ le_bytes 4 16 ++ le_bytes 4 32
             ++ le_bytes 2 1 ++ le_bytes 2 32 ++ le_bytes 4 0
             ++ le_bytes 4 0 ++ le_bytes 4 0 ++ le_bytes 4 0
             ++ le_bytes 4 0 ++ le_bytes 4 0 ∧
    ico.read_BITMAPINFOHEADER info
    = Some ({| ico.biSize := 40; ico.biWidth := 16; ico.biHeight := 32;
               ico.biPlanes := 1; ico.biBitCount := 32;
               ico.biCompression := 0; ico.biSizeImage := 0;
               ico.biXPelsPerMeter := 0; ico.biYPelsPerMeter := 0;
               ico.biClrUsed := 0; ico.biClrImportant := 0 |}, []) ∧
    gen_icon.ico_file = Some file ∧ ico.read_icon file = Some ic ∧
    take 40 (drop 22 file) = info ∧
    ico.biSize (ico.dib ic) = len info ∧
    ico.biWidth (ico.dib ic) = gen_icon.w ∧
    ico.biHeight (ico.dib ic) = 2 * gen_icon.h ∧
    ico.biHeight (ico.dib ic) = 32.
Proof.
  do 3 eexists. by_evaluation.
Qed.

(** C5: the pixel array is the same four bytes 256 times over, 1024 bytes
    with nothing between rows, and the mask is 16 * 4 = 64 zero bytes;
    these are the bitmap and the mask of the icon file. *)
Theorem C5_pixels_and_mask :
  gen_icon.px = concat (replicate 256 [xf6; x82; x3b; xff]) ∧
  length gen_icon.px = 1024%nat ∧
  (∀ i : nat, (i < 256)%nat → ico.pixel gen_icon.px i = [xf6; x82; x3b; xff]) ∧
  gen_icon.mask = replicate 64 x00 ∧
  len gen_icon.mask = gen_icon.h * 4 ∧
  ∃ file ic,
    gen_icon.ico_file = Some file ∧ ico.read_icon file = Some ic ∧
    ico.xor_pixels ic = gen_icon.px ∧ ico.and_mask ic = gen_icon.mask ∧
    len (ico.xor_pixels ic) = gen_icon.w * gen_icon.h * 4.
Proof.
  conjuncts.
  - apply px_eq.
  - rewrite px_eq, length_bytes_mul. reflexivity.
  - apply px_pixel.
  - apply mask_eq.
  - rewrite mask_eq. unfold len. by rewrite length_replicate.
  - do 2 eexists. by_evaluation.
Qed.

(** * The PNG file *)

Lemma length_chunk_bytes (c : png.chunk) :
  length (png.chunk_bytes c)
  = (8 + length (png.chunk_type c) + length (png.chunk_data c))%nat.
Proof.
  unfold png.chunk_bytes.
  rewrite !length_app, !length_rev, !length_le_bytes. lia.
Qed.

(** A signature followed by chunks is read back as those chunks. *)
Lemma read_png_chunks (tds : list (bytes * bytes)) :
  Forall (λ td, length td.1 = 4%nat ∧ len td.2 < 2 ^ 32) tds →
  png.read_png
    (png.signature
       ++ concat ((λ td, png.chunk_bytes (png.chunk_of td.1 td.2)) <$> tds))
  = Some ((λ td, png.chunk_of td.1 td.2) <$> tds).
Proof.
  intros Hall. unfold png.read_png.
  rewrite (read_bytes_app png.signature) by done. cbn [mbind option_bind].
  rewrite decide_True by done.
  apply read_chunks_bytes; [done|].
  clear Hall. induction tds as [|[t dat] tds IH]; [done|].
  cbn [fmap list_fmap concat length].
  rewrite length_app, length_chunk_bytes.
  change (list_fmap _ _ ?f tds) with (f <$> tds). lia.
Qed.

(** The PNG a run writes, and what a reader finds in it. *)
Lemma png_file_read (compress : bytes → bytes) :
  len (compress gen_icon.raw) < 2 ^ 32 →
  ∃ file ihdr,
    gen_icon.png_file compress = Some file ∧
    gen_icon.ihdr_data = Some ihdr ∧
    take 8 file = png.signature ∧
    drop 8 file
    = png.chunk_bytes (png.chunk_of gen_icon.IHDR ihdr)
        ++ png.chunk_bytes
             (png.chunk_of gen_icon.IDAT (compress gen_icon.raw))
        ++ png.chunk_bytes (png.chunk_of gen_icon.IEND []) ∧
    png.read_png file
    = Some [png.chunk_of gen_icon.IHDR ihdr;
            png.chunk_of gen_icon.IDAT (compress gen_icon.raw);
            png.chunk_of gen_icon.IEND []].
Proof.
  intros Hc.
  destruct (png_file_Some compress Hc) as (ihdr & Hihdr & Hfile).
  eexists _, ihdr. split; [exact Hfile|]. split; [exact Hihdr|].
  assert (Hlen : len ihdr < 2 ^ 32).
  { rewrite ihdr_data_eq in Hihdr. by injection Hihdr as <-. }
  split; [reflexivity|]. split; [reflexivity|].
  pose proof (read_png_chunks
                [(gen_icon.IHDR, ihdr);
                 (gen_icon.IDAT, compress gen_icon.raw);
                 (gen_icon.IEND, [])]) as Hread.
  cbn [fmap list_fmap concat fst snd] in Hread.
  rewrite app_nil_r in Hread. apply Hread.
  repeat constructor; done.
Qed.

(** C6: icon.png is the 8-byte signature 89 50 4E 47 0D 0A 1A 0A and then
    exactly the chunks IHDR, IDAT, IEND, in this order; each chunk is its
    payload length in 4 big-endian bytes, its 4-byte ASCII type, its
    payload and, in 4 big-endian bytes, the CRC-32 of type and payload,
    so every chunk passes the checksum test.  (The compressed data has to
    fit the 32-bit length field, or line 36 raises.) *)
Theorem C6_png_signature_and_chunks (compress : bytes → bytes) :
  len (compress gen_icon.raw) < 2 ^ 32 →
  ∃ file ihdr,
    gen_icon.png_file compress = Some file ∧
    gen_icon.ihdr_data = Some ihdr ∧
    let chunks :=
      [png.chunk_of (list_byte_of_string "IHDR") ihdr;
       png.chunk_of (list_byte_of_string "IDAT") (compress gen_icon.raw);
       png.chunk_of (list_byte_of_string "IEND") []] in
    take 8 file = [x89; x50; x4e; x47; x0d; x0a; x1a; x0a] ∧
    drop 8 file = concat (png.chunk_bytes <$> chunks) ∧
    png.read_png file = Some chunks ∧
    Forall (λ c, length (png.chunk_type c) = 4%nat ∧
                 png.chunk_length c = len (png.chunk_data c) ∧
                 png.chunk_crc c
                 = zlib.crc32 (png.chunk_type c ++ png.chunk_data c) ∧
                 png.crc_ok c) chunks ∧
    ∀ (dir_path : string) (s : World),
      gen_icon.ico_path dir_path ∉ unwritable s →
      gen_icon.png_path dir_path ∉ unwritable s →
      (gen_icon.main compress dir_path s).2 = Returned tt ∧
      files (gen_icon.main compress dir_path s).1
        !! gen_icon.png_path dir_path = Some file.
Proof.
  intros Hc.
  destruct (png_file_read compress Hc)
    as (file & ihdr & Hfile & Hihdr & Hsig & Hrest & Hread).
  exists file, ihdr. split; [exact Hfile|]. split; [exact Hihdr|].
  change (list_byte_of_string "IHDR") with gen_icon.IHDR.
  change (list_byte_of_string "IDAT") with gen_icon.IDAT.
  change (list_byte_of_string "IEND") with gen_icon.IEND.
  cbv zeta. conjuncts.
  - exact Hsig.
  - rewrite Hrest. cbn [fmap list_fmap concat]. by rewrite app_nil_r.
  - exact Hread.
  - repeat constructor.
  - intros dir_path s Hi Hp.
    assert (Hret : (gen_icon.main compress dir_path s).2 = Returned tt).
    { apply main_returns_iff. conjuncts; assumption. }
    split; [exact Hret|].
    destruct (main_returns_files compress dir_path s Hret)
      as (ico & png & _ & Hpng & ->).
    rewrite lookup_insert_eq. congruence.
Qed.

(** C6 with the stored-block compressor: 4139 bytes of IDAT payload. *)
Lemma C6_png_signature_and_chunks_witness :
  ∃ file c1 c2 c3,
    gen_icon.png_file stored.compress = Some file ∧
    png.read_png file = Some [c1; c2; c3] ∧
    png.chunk_data c2 = stored.compress gen_icon.raw.
Proof.
  destruct (C6_png_signature_and_chunks stored.compress)
    as (file & ihdr & Hfile & _ & _ & _ & Hread & _).
  - vm_compute. reflexivity.
  - exists file. do 3 eexists. split; [exact Hfile|].
    split; [exact Hread | reflexivity].
Defined.

(** C7: the IHDR payload is 13 bytes: the width 32 and the height 32,
    4 big-endian bytes each, then bit depth 8, colour type 6,
    compression method 0, filter method 0, interlace method 0. *)
Theorem C7_ihdr_payload :
  ∃ ihdr,
    gen_icon.ihdr_data = Some ihdr ∧ length ihdr = 13%nat ∧
    ihdr = rev (le_bytes 4 32) ++ rev (le_bytes 4 32)
             ++ [byte_of_Z 8; byte_of_Z 6; byte_of_Z 0; byte_of_Z 0;
                 byte_of_Z 0] ∧
    png.read_IHDR ihdr
    = Some ({| png.width := 32; png.height := 32; png.bit_depth := 8;
               png.color_type := 6; png.compression_method := 0;
               png.filter_method := 0; png.interlace_method := 0 |}, []).
Proof.
  eexists. split; [apply ihdr_data_eq|]. by_evaluation.
Qed.

(** C8: decompressing the payload of the IDAT chunk gives back the raw
    buffer of lines 22-24, which is 32 scanlines of 1 + 32 * 4 = 129
    bytes, each a filter byte 0 followed by 32 times the four colour
    bytes.  The decompressor is any inverse of the compressor, as zlib's
    is. *)
Theorem C8_idat_decompresses_to_raw (compress : bytes → bytes)
    (decompress : bytes → option bytes) :
  (∀ data, decompress (compress data) = Some data) →
  len (compress gen_icon.raw) < 2 ^ 32 →
  ∃ file ihdr idat iend,
    gen_icon.png_file compress = Some file ∧
    png.read_png file = Some [ihdr; idat; iend] ∧
    png.chunk_type idat = list_byte_of_string "IDAT" ∧
    decompress (png.chunk_data idat) = Some gen_icon.raw ∧
    length gen_icon.raw = (32 * 129)%nat ∧
    gen_icon.raw
    = concat (replicate 32
                (x00 :: concat (replicate 32 [x3b; x82; xf6; xff]))) ∧
    ∀ r : nat, (r < 32)%nat →
      length (png.scanline 129 gen_icon.raw r) = (1 + 32 * 4)%nat ∧
      png.scanline 129 gen_icon.raw r
      = x00 :: concat (replicate 32 [x3b; x82; xf6; xff]) ∧
      ∀ c : nat, (c < 32)%nat →
        png.pixel (png.scanline 129 gen_icon.raw r) c = [x3b; x82; xf6; xff].
Proof.
  intros Hinv Hc.
  destruct (png_file_read compress Hc)
    as (file & ihdr & Hfile & _ & _ & _ & Hread).
  do 4 eexists. split; [exact Hfile|]. split; [exact Hread|].
  split; [reflexivity|]. split; [apply Hinv|].
  split; [by rewrite raw_eq, length_bytes_mul|].
  split; [apply raw_eq|].
  intros r Hr. rewrite raw_scanline by done.
  split; [by rewrite length_cons, length_bytes_mul|].
  split; [done|]. intros c Hcol. rewrite <- (raw_scanline r) by done.
  by apply raw_pixel.
Qed.

(** C8 with the stored-block codec, which inverts its own compressor. *)
Lemma C8_idat_decompresses_to_raw_witness :
  ∃ file ihdr idat iend,
    gen_icon.png_file stored.compress = Some file ∧
    png.read_png file = Some [ihdr; idat; iend] ∧
    stored.decompress (png.chunk_data idat) = Some gen_icon.raw.
Proof.
  destruct (C8_idat_decompresses_to_raw stored.compress stored.decompress)
    as (file & ihdr & idat & iend & Hfile & Hread & _ & Hdec & _).
  - exact stored_decompress_compress.
  - vm_compute. reflexivity.
  - exists file, ihdr, idat, iend.
    split; [exact Hfile|]. split; [exact Hread | exact Hdec].
Defined.

(** * Two runs *)

(** C9: two runs that return, from whatever directories and over
    whatever files and console output, leave the same bytes in icon.ico
    and the same bytes in icon.png; and a second run over the result of
    the first changes no file.  The compressor is the same function in
    both runs. *)
Theorem C9_runs_write_identical_files (compress : bytes → bytes)
    (dir1 dir2 : string) (s1 s2 : World) :
  (gen_icon.main compress dir1 s1).2 = Returned tt →
  (gen_icon.main compress dir2 s2).2 = Returned tt →
  ∃ ico png,
    gen_icon.ico_file = Some ico ∧
    gen_icon.png_file compress = Some png ∧
    files (gen_icon.main compress dir1 s1).1 !! gen_icon.ico_path dir1
    = Some ico ∧
    files (gen_icon.main compress dir2 s2).1 !! gen_icon.ico_path dir2
    = Some ico ∧
    files (gen_icon.main compress dir1 s1).1 !! gen_icon.png_path dir1
    = Some png ∧
    files (gen_icon.main compress dir2 s2).1 !! gen_icon.png_path dir2
    = Some png ∧
    (gen_icon.main compress dir1 (gen_icon.main compress dir1 s1).1).2
    = Returned tt ∧
    files (gen_icon.main compress dir1 (gen_icon.main compress dir1 s1).1).1
    = files (gen_icon.main compress dir1 s1).1.
Proof.
  intros Hret1 Hret2.
  destruct (main_returns_files compress dir1 s1 Hret1)
    as (ico & png & Hico & Hpng & Hfiles1).
  destruct (main_returns_files compress dir2 s2 Hret2)
    as (ico' & png' & Hico' & Hpng' & Hfiles2).
  assert (ico' = ico) as -> by congruence.
  assert (png' = png) as -> by congruence.
  pose proof (ico_path_ne_png_path dir1) as Hne1.
  pose proof (ico_path_ne_png_path dir2) as Hne2.
  assert (Hi1 : files (gen_icon.main compress dir1 s1).1
                  !! gen_icon.ico_path dir1 = Some ico).
  { rewrite Hfiles1, lookup_insert_ne by congruence.
    apply lookup_insert_eq. }
  assert (Hp1 : files (gen_icon.main compress dir1 s1).1
                  !! gen_icon.png_path dir1 = Some png).
  { rewrite Hfiles1. apply lookup_insert_eq. }
  assert (Hret1' :
    (gen_icon.main compress dir1 (gen_icon.main compress dir1 s1).1).2
    = Returned tt).
  { apply main_returns_iff. rewrite main_unwritable.
    by apply main_returns_iff. }
  exists ico, png. conjuncts; try assumption.
  - rewrite Hfiles2, lookup_insert_ne by congruence.
    apply lookup_insert_eq.
  - rewrite Hfiles2. apply lookup_insert_eq.
  - destruct (main_returns_files compress dir1 _ Hret1')
      as (ico3 & png3 & Hico3 & Hpng3 & ->).
    assert (ico3 = ico) as -> by congruence.
    assert (png3 = png) as -> by congruence.
    rewrite (insert_id _ _ _ Hi1). apply insert_id, Hp1.
Qed.

(** C9 at two runs: one from an empty world, one from a directory that
    already holds an icon.ico, with console output and a locked path. *)
Lemma C9_runs_write_identical_files_witness :
  ∃ ico png,
    files (gen_icon.main stored.compress "/home/dev/katara/src-tauri/icons"
             (mkWorld ∅ [] ∅)).1
      !! "/home/dev/katara/src-tauri/icons/icon.ico" = Some ico ∧
    files (gen_icon.main stored.compress "/tmp/build/"
             (mkWorld {["/tmp/build/icon.ico" := [x00; x01]]}
                      ["building"] {["/tmp/build/locked"]})).1
      !! "/tmp/build/icon.ico" = Some ico ∧
    files (gen_icon.main stored.compress "/home/dev/katara/src-tauri/icons"
             (mkWorld ∅ [] ∅)).1
      !! "/home/dev/katara/src-tauri/icons/icon.png" = Some png ∧
    files (gen_icon.main stored.compress "/tmp/build/"
             (mkWorld {["/tmp/build/icon.ico" := [x00; x01]]}
                      ["building"] {["/tmp/build/locked"]})).1
      !! "/tmp/build/icon.png" = Some png.
Proof.
  destruct (C9_runs_write_identical_files stored.compress
              "/home/dev/katara/src-tauri/icons" "/tmp/build/"
              (mkWorld ∅ [] ∅)
              (mkWorld {["/tmp/build/icon.ico" := [x00; x01]]}
                       ["building"] {["/tmp/build/locked"]}))
    as (ico & png & _ & _ & Hi1 & Hi2 & Hp1 & Hp2 & _).
  - vm_compute. reflexivity.
  - vm_compute. reflexivity.
  - exists ico, png.
    split; [exact Hi1|]. split; [exact Hi2|]. split; [exact Hp1 | exact Hp2].
Defined.

(** * One colour *)

(** The two serialisations of a colour differ by the order of the first
    three bytes. *)
Lemma bgra_rgba (c : colour) :
  rev (take 3 (bgra_bytes c)) = take 3 (rgba_bytes c) ∧
  drop 3 (bgra_bytes c) = drop 3 (rgba_bytes c).
Proof. by destruct c. Qed.

(** C10: both images are filled with the colour (0x3b, 0x82, 0xf6, 0xff):
    every pixel of the icon holds its bytes in the order blue, green,
    red, alpha (f6 82 3b ff), every pixel of the PNG in the order red,
    green, blue, alpha (3b 82 f6 ff); so the first three bytes of a pixel
    of one, reversed, are the first three of a pixel of the other, and
    the fourth bytes are equal. *)
Theorem C10_same_colour_in_both_files :
  let c := RGBA x3b x82 xf6 xff in
  bgra_bytes c = [xf6; x82; x3b; xff] ∧
  rgba_bytes c = [x3b; x82; xf6; xff] ∧
  (∀ i : nat, (i < 256)%nat → ico.pixel gen_icon.px i = bgra_bytes c) ∧
  (∀ r k : nat, (r < 32)%nat → (k < 32)%nat →
     png.pixel (png.scanline 129 gen_icon.raw r) k = rgba_bytes c) ∧
  ∀ i r k : nat, (i < 256)%nat → (r < 32)%nat → (k < 32)%nat →
    rev (take 3 (ico.pixel gen_icon.px i))
    = take 3 (png.pixel (png.scanline 129 gen_icon.raw r) k) ∧
    drop 3 (ico.pixel gen_icon.px i)
    = drop 3 (png.pixel (png.scanline 129 gen_icon.raw r) k).
Proof.
  intros c. conjuncts.
  - reflexivity.
  - reflexivity.
  - intros i Hi. by rewrite px_pixel.
  - intros r k Hr Hk. by rewrite raw_pixel.
  - intros i r k Hi Hr Hk. rewrite px_pixel, raw_pixel by assumption.
    apply (bgra_rgba c).
Qed.


(** * Further properties of [png_chunk] (lines 28-30) *)

(** What [png_chunk] returns, part by part: the four fields follow each
    other with nothing between them, whatever the length of the type. *)
Lemma png_chunk_parts (t dat bs : bytes) :
  gen_icon.png_chunk t dat = Some bs →
  len dat < 2 ^ 32 ∧
  bs = rev (le_bytes 4 (len dat)) ++ t ++ dat
         ++ rev (le_bytes 4 (zlib.crc32 (t ++ dat))).
Proof.
  intros Hbs.
  destruct (decide (len dat < 2 ^ 32)) as [Hlt|Hge].
  - split; [exact Hlt|].
    rewrite (png_chunk_Some t dat Hlt) in Hbs. by injection Hbs as <-.
  - rewrite (png_chunk_None t dat) in Hbs by lia. discriminate Hbs.
Qed.

(** X1: [png_chunk] raises [struct.error] exactly when its payload is
    2^32 bytes or longer; the type and the checksum never make it raise. *)
Theorem X1_png_chunk_raises_iff (t dat : bytes) :
  gen_icon.png_chunk t dat = None ↔ 2 ^ 32 ≤ len dat.
Proof.
  split.
  - intros Hnone. destruct (decide (len dat < 2 ^ 32)) as [Hlt|Hge]; [|lia].
    rewrite (png_chunk_Some t dat Hlt) in Hnone. discriminate Hnone.
  - apply png_chunk_None.
Qed.

(** X2: for a payload that fits, [png_chunk] returns 4 + len(type) +
    len(data) + 4 bytes: the payload length as a big-endian number, the
    type and the payload unchanged, and the CRC-32 of type and payload
    as a big-endian number.  The type is not checked: any length goes. *)
Theorem X2_png_chunk_layout (t dat : bytes) :
  len dat < 2 ^ 32 →
  ∃ bs,
    gen_icon.png_chunk t dat = Some bs ∧
    length bs = (4 + length t + length dat + 4)%nat ∧
    be_uint (take 4 bs) = len dat ∧
    take (length t) (drop 4 bs) = t ∧
    take (length dat) (drop (4 + length t) bs) = dat ∧
    be_uint (drop (4 + length t + length dat) bs) = zlib.crc32 (t ++ dat).
Proof.
  intros Hlt. eexists. split; [apply (png_chunk_Some t dat Hlt)|].
  unfold png.chunk_bytes, png.chunk_of.
  cbn [png.chunk_length png.chunk_type png.chunk_data png.chunk_crc].
  set (L := rev (le_bytes 4 (len dat))).
  set (C := rev (le_bytes 4 (zlib.crc32 (t ++ dat)))).
  assert (HL : length L = 4%nat)
    by (unfold L; by rewrite length_rev, length_le_bytes).
  assert (HC : length C = 4%nat)
    by (unfold C; by rewrite length_rev, length_le_bytes).
  conjuncts.
  - rewrite !length_app. lia.
  - rewrite take_app_length' by (symmetry; exact HL).
    unfold L. apply be_uint_be_bytes_small. unfold len in *. lia.
  - rewrite drop_app_length' by (symmetry; exact HL).
    apply take_app_length.
  - rewrite (app_assoc L t), drop_app_length' by (rewrite length_app; lia).
    apply take_app_length.
  - rewrite (app_assoc t dat), (app_assoc L (t ++ dat)).
    rewrite drop_app_length' by (rewrite !length_app; lia).
    unfold C. apply be_uint_be_bytes_small.
    pose proof (crc32_range (t ++ dat)). lia.
Qed.

(** X2 at the type b'tEXt' and a two-byte payload. *)
Lemma X2_png_chunk_layout_witness :
  ∃ bs,
    gen_icon.png_chunk [x74; x45; x58; x74] [x01; x02] = Some bs ∧
    length bs = 14%nat.
Proof.
  destruct (X2_png_chunk_layout [x74; x45; x58; x74] [x01; x02])
    as (bs & Hbs & Hlen & _).
  - vm_compute. reflexivity.
  - exists bs. split; [exact Hbs | exact Hlen].
Defined.

(** X3: a chunk with a four-byte type is read back from what
    [png_chunk] returns, whatever follows it in the file: the reader
    finds the payload length, the type, the payload and a checksum that
    matches, and stops exactly at the end of the chunk. *)
Theorem X3_png_chunk_read_back (t dat rest : bytes) :
  length t = 4%nat → len dat < 2 ^ 32 →
  ∃ bs,
    gen_icon.png_chunk t dat = Some bs ∧
    png.read_chunk (bs ++ rest)
    = Some ({| png.chunk_length := len dat; png.chunk_type := t;
               png.chunk_data := dat;
               png.chunk_crc := zlib.crc32 (t ++ dat) |}, rest) ∧
    png.crc_ok {| png.chunk_length := len dat; png.chunk_type := t;
                  png.chunk_data := dat;
                  png.chunk_crc := zlib.crc32 (t ++ dat) |}.
Proof.
  intros Ht Hlt. eexists. split; [apply (png_chunk_Some t dat Hlt)|].
  split; [apply (read_chunk_bytes t dat rest Ht Hlt) | reflexivity].
Qed.

(** X3 at the type b'IEND', an empty payload and one byte after it. *)
Lemma X3_png_chunk_read_back_witness :
  ∃ bs c,
    gen_icon.png_chunk gen_icon.IEND [] = Some bs ∧
    png.read_chunk (bs ++ [xff]) = Some (c, [xff]).
Proof.
  destruct (X3_png_chunk_read_back gen_icon.IEND [] [xff])
    as (bs & Hbs & Hread & _).
  - reflexivity.
  - vm_compute. reflexivity.
  - exists bs. eexists. split; [exact Hbs | exact Hread].
Defined.

(** X4: [png_chunk] never returns the same bytes for two different
    chunks: the bytes determine the type and the payload. *)
Theorem X4_png_chunk_injective (t dat t' dat' bs : bytes) :
  gen_icon.png_chunk t dat = Some bs →
  gen_icon.png_chunk t' dat' = Some bs →
  t = t' ∧ dat = dat'.
Proof.
  intros [Hlt ->]%png_chunk_parts [Hlt' Heq]%png_chunk_parts.
  apply app_inj_1 in Heq as [HL Heq];
    [|by rewrite !length_rev, !length_le_bytes].
  assert (Hlen : len dat = len dat').
  { apply (f_equal be_uint) in HL.
    rewrite !be_uint_be_bytes_small in HL by (unfold len in *; lia).
    exact HL. }
  assert (Hd : length dat = length dat') by (unfold len in Hlen; lia).
  assert (Ht : length t = length t').
  { apply (f_equal length) in Heq.
    rewrite !length_app, !length_rev, !length_le_bytes in Heq. lia. }
  apply app_inj_1 in Heq as [-> Heq]; [|exact Ht].
  apply app_inj_1 in Heq as [-> _]; [|exact Hd].
  split; reflexivity.
Qed.

(** X4 at the empty b'IEND' chunk. *)
Lemma X4_png_chunk_injective_witness :
  gen_icon.IEND = [x49; x45; x4e; x44] ∧ @nil byte = [].
Proof.
  apply (X4_png_chunk_injective gen_icon.IEND [] [x49; x45; x4e; x44] []
           [x00; x00; x00; x00; x49; x45; x4e; x44; xae; x42; x60; x82]).
  - vm_compute. reflexivity.
  - vm_compute. reflexivity.
Defined.

(** What [mapM] of [png_chunk] returns. *)
Lemma mapM_png_chunk (tds : list (bytes * bytes)) (cs : list bytes) :
  mapM (λ td, gen_icon.png_chunk td.1 td.2) tds = Some cs →
  Forall (λ td, len td.2 < 2 ^ 32) tds ∧
  cs = (λ td, png.chunk_bytes (png.chunk_of td.1 td.2)) <$> tds.
Proof.
  intros H%mapM_Some_1.
  induction H as [|[t dat] c tds cs Hc _ [IH1 IH2]]; [by split|].
  cbn [fst snd] in Hc.
  destruct (decide (len dat < 2 ^ 32)) as [Hlt|Hge].
  - rewrite (png_chunk_Some t dat Hlt) in Hc. injection Hc as <-.
    split; [by constructor|]. cbn [fmap list_fmap fst snd].
    f_equal. exact IH2.
  - rewrite (png_chunk_None t dat) in Hc by lia. discriminate Hc.
Qed.

(** X5: chunks compose.  The signature followed by what [png_chunk]
    returns for any list of four-byte types and payloads is a file that
    reads back as exactly those chunks, in order, each with a matching
    checksum: writing chunks one after the other, as lines 34-37 do,
    needs no separator and loses nothing. *)
Theorem X5_png_chunks_compose (tds : list (bytes * bytes))
    (cs : list bytes) :
  Forall (λ td, length td.1 = 4%nat) tds →
  mapM (λ td, gen_icon.png_chunk td.1 td.2) tds = Some cs →
  png.read_png (gen_icon.signature ++ concat cs)
  = Some ((λ td, {| png.chunk_length := len td.2; png.chunk_type := td.1;
                    png.chunk_data := td.2;
                    png.chunk_crc := zlib.crc32 (td.1 ++ td.2) |}) <$> tds).
Proof.
  intros Htypes [Hfit ->]%mapM_png_chunk.
  apply (read_png_chunks tds).
  rewrite Forall_forall in Htypes, Hfit |- *.
  intros td Htd. split; [apply Htypes | apply Hfit]; exact Htd.
Qed.

(** X5 at a file of two chunks, b'IDAT' with three bytes and b'IEND'. *)
Lemma X5_png_chunks_compose_witness :
  ∃ cs c1 c2,
    mapM (λ td, gen_icon.png_chunk td.1 td.2)
         [(gen_icon.IDAT, [x0a; x0b; x0c]); (gen_icon.IEND, [])]
    = Some cs ∧
    png.read_png (gen_icon.signature ++ concat cs) = Some [c1; c2].
Proof.
  do 3 eexists. split.
  - vm_compute. reflexivity.
  - apply (X5_png_chunks_compose
             [(gen_icon.IDAT, [x0a; x0b; x0c]); (gen_icon.IEND, [])]).
    + repeat constructor.
    + vm_compute. reflexivity.
Defined.

(** * Further properties of a run (lines 15-39) *)

Section outcomes.

Variable compress : bytes → bytes.
Variable dir_path : string.
Variable s : World.

(** [main_cases] at the values the script computes. *)
Lemma main_cases_computed :
  ∃ ico ihdr,
    gen_icon.ico_file = Some ico ∧
    gen_icon.ihdr_data = Some ihdr ∧
    gen_icon.main compress dir_path s =
      let ico_path := gen_icon.ico_path dir_path in
      let png_path := gen_icon.png_path dir_path in
      let c1 := png.chunk_bytes (png.chunk_of gen_icon.IHDR ihdr) in
      let c2 := png.chunk_bytes
                  (png.chunk_of gen_icon.IDAT (compress gen_icon.raw)) in
      let c3 := png.chunk_bytes (png.chunk_of gen_icon.IEND []) in
      let out1 := stdout s ++ ["Created " +:+ ico_path] in
      let files1 := <[ico_path := ico]> (files s) in
      if decide (ico_path ∈ unwritable s) then (s, Raised OSError)
      else if decide (png_path ∈ unwritable s)
      then (mkWorld files1 out1 (unwritable s), Raised OSError)
      else if decide (len (compress gen_icon.raw) < 2 ^ 32)
      then (mkWorld
              (<[png_path := gen_icon.signature ++ c1 ++ c2 ++ c3]> files1)
              (out1 ++ ["Created " +:+ png_path; "Done!"])
              (unwritable s),
            Returned tt)
      else (mkWorld (<[png_path := gen_icon.signature ++ c1]> files1)
                    out1 (unwritable s),
            Raised struct_error).
Proof.
  destruct ico_parts as (hdr & d & info & _ & _ & _ & Hico & _).
  eexists _, _. split; [exact Hico|]. split; [exact ihdr_data_eq|].
  apply (main_cases compress dir_path s _ _ Hico ihdr_data_eq).
  reflexivity.
Qed.


(** X7: when icon.ico cannot be opened the run stops there with
    [OSError] and has changed nothing: no file is written, nothing is
    printed, and icon.png is not attempted. *)
Theorem X7_unwritable_icon_stops_run :
  gen_icon.ico_path dir_path ∈ unwritable s →
  gen_icon.main compress dir_path s = (s, Raised OSError).
Proof.
  intros Hi. destruct main_cases_computed as (ico & ihdr & _ & _ & ->).
  cbv zeta. rewrite (decide_True (P := _ ∈ _)) by exact Hi. reflexivity.
Qed.

(** X8: when icon.ico can be opened and icon.png cannot, the run raises
    [OSError] after the icon is complete and its line is printed;
    icon.png is left as it was. *)
Theorem X8_unwritable_png_keeps_icon :
  gen_icon.ico_path dir_path ∉ unwritable s →
  gen_icon.png_path dir_path ∈ unwritable s →
  ∃ ico,
    gen_icon.ico_file = Some ico ∧
    gen_icon.main compress dir_path s
    = (mkWorld (<[gen_icon.ico_path dir_path := ico]> (files s))
               (stdout s ++ ["Created " +:+ gen_icon.ico_path dir_path])
               (unwritable s),
       Raised OSError) ∧
    files (gen_icon.main compress dir_path s).1
      !! gen_icon.png_path dir_path
    = files s !! gen_icon.png_path dir_path.
Proof.
  intros Hi Hp. destruct main_cases_computed as (ico & ihdr & Hico & Hihdr0 & ->).
  exists ico. split; [exact Hico|]. cbv zeta.
  rewrite (decide_False (P := _ ∈ _)) by exact Hi.
  rewrite (decide_True (P := _ ∈ _)) by exact Hp.
  split; [reflexivity|]. cbn [fst files].
  apply lookup_insert_ne, ico_path_ne_png_path.
Qed.

(** X9: a run touches no file but icon.ico and icon.png of its
    directory, however it ends. *)
Theorem X9_other_files_untouched (p : string) :
  p ≠ gen_icon.ico_path dir_path →
  p ≠ gen_icon.png_path dir_path →
  files (gen_icon.main compress dir_path s).1 !! p = files s !! p.
Proof.
  intros Hi Hp. destruct main_cases_computed as (ico & ihdr & _ & _ & ->).
  cbv zeta.
  destruct (decide (_ ∈ _)); [reflexivity|].
  destruct (decide (_ ∈ _)); [|destruct (decide (_ < _))];
    cbn [fst files];
    rewrite ?(lookup_insert_ne _ (gen_icon.png_path dir_path)) by congruence;
    apply lookup_insert_ne; congruence.
Qed.

(** X10: the console tells the truth.  A run only adds lines to the
    console; a "Created" line for a file is there only when that file
    is complete, and "Done!" exactly when the run returns. *)
Theorem X10_console_reports_complete_files :
  let s' := (gen_icon.main compress dir_path s).1 in
  let r := (gen_icon.main compress dir_path s).2 in
  let ico_line := "Created " +:+ gen_icon.ico_path dir_path in
  let png_line := "Created " +:+ gen_icon.png_path dir_path in
  ∃ new : list string,
    stdout s' = stdout s ++ new ∧
    (new = [] ∨ new = [ico_line] ∨ new = [ico_line; png_line; "Done!"]) ∧
    (ico_line ∈ new →
       is_Some gen_icon.ico_file ∧
       files s' !! gen_icon.ico_path dir_path = gen_icon.ico_file) ∧
    (png_line ∈ new →
       is_Some (gen_icon.png_file compress) ∧
       files s' !! gen_icon.png_path dir_path = gen_icon.png_file compress) ∧
    ("Done!" ∈ new ↔ r = Returned tt).
Proof.
  cbv zeta.
  pose proof (ico_path_ne_png_path dir_path) as Hne.
  assert (Hlines : "Created " +:+ gen_icon.png_path dir_path
                   ≠ "Created " +:+ gen_icon.ico_path dir_path).
  { intros H%append_inj_l. congruence. }
  assert (Hdone : ∀ p, "Done!" ≠ "Created " +:+ p).
  { intros p H. cbn in H. discriminate H. }
  destruct main_cases_computed as (ico & ihdr & Hico & Hihdr0 & ->). cbv zeta.
  destruct (decide (gen_icon.ico_path dir_path ∈ unwritable s)) as [Hi|Hi];
    [|destruct (decide (gen_icon.png_path dir_path ∈ unwritable s))
        as [Hp|Hp];
      [|destruct (decide (len (compress gen_icon.raw) < 2 ^ 32))
          as [Hc|Hc]]];
    cbn [fst snd files stdout].
  - exists []. rewrite app_nil_r. split; [reflexivity|].
    split; [by left|].
    split; [by intros ?%elem_of_nil|].
    split; [by intros ?%elem_of_nil|].
    split; [by intros ?%elem_of_nil | discriminate].
  - eexists. split; [reflexivity|]. split; [right; by left|].
    split; [|split].
    + intros _. rewrite Hico. split; [by eexists|]. apply lookup_insert_eq.
    + intros H%list_elem_of_singleton. by destruct Hlines.
    + split; [intros H%list_elem_of_singleton; by destruct (Hdone _ H)
             | discriminate].
  - destruct (png_file_Some compress Hc) as (ihdr' & Hihdr & Hpng).
    assert (ihdr' = ihdr) as -> by congruence.
    eexists. split; [symmetry; apply app_assoc|].
    split; [right; by right|].
    split; [|split].
    + intros _. rewrite Hico. split; [by eexists|].
      rewrite lookup_insert_ne by congruence. apply lookup_insert_eq.
    + intros _. rewrite Hpng. split; [by eexists|]. apply lookup_insert_eq.
    + split; [reflexivity|]. intros _.
      do 2 apply list_elem_of_further. apply list_elem_of_here.
  - eexists. split; [reflexivity|]. split; [right; by left|].
    split; [|split].
    + intros _. rewrite Hico. split; [by eexists|].
      rewrite lookup_insert_ne by congruence. apply lookup_insert_eq.
    + intros H%list_elem_of_singleton. by destruct Hlines.
    + split; [intros H%list_elem_of_singleton; by destruct (Hdone _ H)
             | discriminate].
Qed.

End outcomes.

(** X7 at a directory whose icon.ico is locked. *)
Lemma X7_unwritable_icon_stops_run_witness :
  gen_icon.main stored.compress "/ro"
    (mkWorld ∅ ["start"] {["/ro/icon.ico"]})
  = (mkWorld ∅ ["start"] {["/ro/icon.ico"]}, Raised OSError).
Proof.
  apply X7_unwritable_icon_stops_run.
  cbn [unwritable]. apply elem_of_singleton_2. reflexivity.
Defined.

(** X8 at a directory whose icon.png is locked. *)
Lemma X8_unwritable_png_keeps_icon_witness :
  ∃ ico,
    gen_icon.ico_file = Some ico ∧
    files (gen_icon.main stored.compress "/ro"
             (mkWorld ∅ [] {["/ro/icon.png"]})).1 !! "/ro/icon.ico"
    = Some ico.
Proof.
  destruct (X8_unwritable_png_keeps_icon stored.compress "/ro"
              (mkWorld ∅ [] {["/ro/icon.png"]}))
    as (ico & Hico & Hrun & _).
  - cbn [unwritable]. apply not_elem_of_singleton_2. discriminate.
  - cbn [unwritable]. apply elem_of_singleton_2. reflexivity.
  - exists ico. split; [exact Hico|]. rewrite Hrun. apply lookup_insert_eq.
Defined.

(** X9 at a directory that holds another file. *)
Lemma X9_other_files_untouched_witness :
  files (gen_icon.main stored.compress "/app"
           (mkWorld {["/app/icon.icns" := [x69; x63]]} [] ∅)).1
    !! "/app/icon.icns"
  = Some [x69; x63].
Proof.
  rewrite (X9_other_files_untouched stored.compress "/app"
             (mkWorld {["/app/icon.icns" := [x69; x63]]} [] ∅)
             "/app/icon.icns").
  - apply lookup_singleton_eq.
  - discriminate.
  - discriminate.
Defined.
